(** * PSBT packets (BIP 174): parser, serializer, sanity check and fee

    A shallow embedding of [btcutil/psbt/psbt.go] and
    [btcutil/psbt/partialsig.go].

    - Byte slices are lists of bytes; a [nil] slice and an empty slice are
      the same list, except for the fields whose presence the code tests
      with [!= nil], which are options.
    - An [io.Reader] over a byte slice is the list of bytes not yet read.
    - A Go function returning [(T, error)] returns a [result T].
    - [int64] amounts are integers wrapped to 64 bits after each operation.
    - The collaborators that psbt.go calls but that live in other files
      (transaction codec, extended-key decoding, the per-input and
      per-output field tables, the input sanity rule) are the fields of the
      class [Externals]; the theorems hold for every instance. *)

From Stdlib Require Import String Ascii ZArith List Lia Bool.
From coqutil Require Import Byte Word.LittleEndianList.
Import ListNotations.
Local Open Scope Z_scope.

Set Implicit Arguments.

Definition bytes : Type := list byte.

(** ** Errors and results *)

(** The error values declared in psbt.go, the two [io] errors a short read
    gives, the [*wire.MessageError] of the wire package and the error
    [GetTxFee] passes on when an input has no UTXO. *)
Inductive error : Type :=
| ErrInvalidPsbtFormat
| ErrDuplicateKey
| ErrInvalidKeyData
| ErrInvalidMagicBytes
| ErrInvalidRawTxSigned
| ErrInvalidPrevOutNonWitnessTransaction
| ErrInvalidSignatureForInput
| ErrInputAlreadyFinalized
| ErrIncompletePSBT
| ErrNotFinalizable
| ErrInvalidSigHashFlags
| ErrUnsupportedScriptType
| io_EOF
| io_ErrUnexpectedEOF
| wire_MessageError
| ErrMissingUtxo.

Inductive result (A : Type) : Type :=
| Ok (a : A)
| Err (e : error).
Arguments Ok {A} a.
Arguments Err {A} e.

Definition bind {A B : Type} (c : result A) (k : A -> result B) : result B :=
  match c with
  | Ok a => k a
  | Err e => Err e
  end.

Notation "x <- c1 ;; c2" := (bind c1 (fun x => c2))
  (at level 61, c1 at next level, right associativity).
Notation "' pat <- c1 ;; c2" :=
  (bind c1 (fun x => match x with pat => c2 end))
  (at level 61, pat pattern, c1 at next level, right associativity).

(** ** Readers *)

Definition Reader : Type := bytes.

Definition len (b : bytes) : Z := Z.of_nat (length b).

(** [io.ReadFull(r, buf)] with [len(buf) = n]: exactly [n] bytes, [io.EOF]
    when nothing could be read and [io.ErrUnexpectedEOF] on a short read. *)
Definition ReadFull (r : Reader) (n : Z) : result (bytes * Reader) :=
  if n <=? len r then Ok (firstn (Z.to_nat n) r, skipn (Z.to_nat n) r)
  else match r with
       | [] => Err io_EOF
       | _ :: _ => Err io_ErrUnexpectedEOF
       end.

(** ** The wire package: variable-length integers and byte strings *)

Module wire.

(** Modelled from the spec: [readUint] stands for the little-endian
    fixed-width reads of the wire package, which is not part of the
    sources ("4-byte little-endian indices"). *)
Definition readUint (width : Z) (r : Reader) : result (Z * Reader) :=
  '(b, r') <- ReadFull r width ;;
  Ok (le_combine b, r').

(** Modelled from the spec: [wire.ReadVarInt] is missing from the sources;
    the "variable-length integer" of the record layout is Bitcoin's
    compact size: one byte below 0xfd, else a marker 0xfd, 0xfe or 0xff and
    2, 4 or 8 little-endian bytes, refused when a shorter form exists. *)
Definition ReadVarInt (r : Reader) : result (Z * Reader) :=
  '(discriminant, r) <- readUint 1 r ;;
  if discriminant =? 0xff then
    '(sv, r) <- readUint 8 r ;;
    if sv <? 0x100000000 then Err wire_MessageError else Ok (sv, r)
  else if discriminant =? 0xfe then
    '(sv, r) <- readUint 4 r ;;
    if sv <? 0x10000 then Err wire_MessageError else Ok (sv, r)
  else if discriminant =? 0xfd then
    '(sv, r) <- readUint 2 r ;;
    if sv <? 0xfd then Err wire_MessageError else Ok (sv, r)
  else Ok (discriminant, r).

(** Modelled from the spec: [wire.WriteVarInt], the writer of the same
    integers, in the shortest form. *)
Definition WriteVarInt (val : Z) : bytes :=
  if val <? 0xfd then [byte.of_Z val]
  else if val <=? 0xffff then byte.of_Z 0xfd :: le_split 2 val
  else if val <=? 0xffffffff then byte.of_Z 0xfe :: le_split 4 val
  else byte.of_Z 0xff :: le_split 8 val.

(** Modelled from the spec: [wire.ReadVarBytes] is missing from the
    sources; "read_value(stream, max_len)" reads the length, fails when it
    is above the bound and only then reads that many bytes. *)
Definition ReadVarBytes (r : Reader) (maxAllowed : Z)
  : result (bytes * Reader) :=
  '(count, r) <- ReadVarInt r ;;
  if count >? maxAllowed then Err wire_MessageError
  else ReadFull r count.

(** Modelled from the spec: [wire.WriteVarBytes], a length and the
    bytes. *)
Definition WriteVarBytes (b : bytes) : bytes :=
  WriteVarInt (len b) ++ b.

(** The transaction types of the wire package, as far as psbt.go reads
    them. *)
Record OutPoint : Type := { Hash : bytes; Index : Z }.

Record TxIn : Type := {
  PreviousOutPoint : OutPoint;
  SignatureScript : bytes;
  Witness : list bytes;
  Sequence : Z
}.

Record TxOut : Type := { Value : Z; PkScript : bytes }.

Record MsgTx : Type := {
  tx_Version : Z;
  tx_TxIn : list TxIn;
  tx_TxOut : list TxOut;
  tx_LockTime : Z
}.

End wire.

(** ** Constants of psbt.go *)

Definition psbtMagicLength : Z := 5.

Definition psbtMagic : bytes :=
  [Init.Byte.x70; Init.Byte.x73; Init.Byte.x62; Init.Byte.x74; Init.Byte.xff].

Definition MaxPsbtValueLength : Z := 4000000.

Definition MaxPsbtKeyLength : Z := 10000.

Definition MaxPsbtKeyValue : Z := 0x02000000.

(** The global key types ("reserved global key type 0x00 = unsigned
    transaction; 0x01 = extended public key"). [GlobalType] is the
    conversion of an [int] key code to the type's 32 bits. *)
Definition GlobalType (keyCode : Z) : Z := keyCode mod 2 ^ 32.

Definition UnsignedTxType : Z := 0.

Definition XPubType : Z := 1.

(** ** The key-value codec *)

(** Modelled from the spec: [getKey] (utils.go) is missing from the sources.
    "A record's key begins with a variable-length integer giving key length;
    a key length of zero signals the end-of-section separator", reported as
    key code -1; the key is bounded by [MaxPsbtKeyLength] ("anything more
    will return ErrInvalidKeyData"); the key starts with its type code, a
    compact size that is one byte for every type a writer produces and that
    is "range-checked against a maximum type-value constant"; the rest of
    the key is the type-specific key data, [nil] when there is none. *)
Definition getKey (r : Reader) : result (Z * bytes * Reader) :=
  match wire.ReadVarInt r with
  | Err _ => Err ErrInvalidPsbtFormat
  | Ok (count, r) =>
      if count =? 0 then Ok (-1, [], r)
      else if count >? MaxPsbtKeyLength then Err ErrInvalidKeyData
      else
        '(key, r) <- ReadFull r count ;;
        match wire.ReadVarInt key with
        | Err _ => Err ErrInvalidPsbtFormat
        | Ok (keyType, keyData) =>
            if keyType >? MaxPsbtKeyValue then Err ErrInvalidPsbtFormat
            else Ok (keyType, keyData, r)
        end
  end.

(** Modelled from the spec: [serializeKVpair] (utils.go) is missing from the
    sources; a record is "(varint keylen, key, varint valuelen, value)". *)
Definition serializeKVpair (key value : bytes) : bytes :=
  wire.WriteVarBytes key ++ wire.WriteVarBytes value.


(** [bytes.Equal]. *)
Fixpoint bytes_Equal (a b : bytes) : bool :=
  match a, b with
  | [], [] => true
  | x :: a', y :: b' => Byte.eqb x y && bytes_Equal a' b'
  | _, _ => false
  end.

(** ** Data model *)

(** [Unknown] (psbt.go). *)
Record Unknown : Type := { Key : bytes; Value : bytes }.

(** [PartialSig] (partialsig.go). *)
Record PartialSig : Type := { PubKey : bytes; Signature : bytes }.

(** Modelled from the spec: the type [XPub] is declared outside the sources:
    "an extended public key (opaque key bytes) paired with a master key
    fingerprint and a derivation path". *)
Record XPub : Type := {
  ExtendedKey : bytes;
  MasterKeyFingerprint : Z;
  Bip32Path : list Z
}.

(** Modelled from the spec: a BIP-32 derivation of an input or output, a
    public key with its fingerprint and path. *)
Record Bip32Derivation : Type := {
  d_PubKey : bytes;
  d_MasterKeyFingerprint : Z;
  d_Bip32Path : list Z
}.

(** Modelled from the spec: the type [PInput] is declared outside the
    sources. The fields are those of the data model that psbt.go and the
    claims read: non-witness UTXO (the full previous transaction), witness
    UTXO (a single output), partial signatures, sighash type, redeem and
    witness script, BIP-32 derivations, final script-sig, final witness and
    unknown pairs; the proof-of-reserves fields are left out. A pointer or
    slice whose presence the code tests is an option. *)
Record PInput : Type := {
  NonWitnessUtxo : option wire.MsgTx;
  WitnessUtxo : option wire.TxOut;
  PartialSigs : list PartialSig;
  SighashType : Z;
  RedeemScript : option bytes;
  WitnessScript : option bytes;
  Bip32Derivations : list Bip32Derivation;
  FinalScriptSig : option bytes;
  FinalScriptWitness : option bytes;
  in_Unknowns : list Unknown
}.

(** Modelled from the spec: the type [POutput]: "redeem script, witness
    script, BIP-32 derivations, unknown pairs". *)
Record POutput : Type := {
  out_RedeemScript : option bytes;
  out_WitnessScript : option bytes;
  out_Bip32Derivations : list Bip32Derivation;
  out_Unknowns : list Unknown
}.

(** The zero values [PInput{}] and [POutput{}]. *)
Definition PInput_zero : PInput :=
  {| NonWitnessUtxo := None; WitnessUtxo := None; PartialSigs := [];
     SighashType := 0; RedeemScript := None; WitnessScript := None;
     Bip32Derivations := []; FinalScriptSig := None;
     FinalScriptWitness := None; in_Unknowns := [] |}.

Definition POutput_zero : POutput :=
  {| out_RedeemScript := None; out_WitnessScript := None;
     out_Bip32Derivations := []; out_Unknowns := [] |}.

(** [Packet] (psbt.go). *)
Record Packet : Type := {
  UnsignedTx : wire.MsgTx;
  Inputs : list PInput;
  Outputs : list POutput;
  XPubs : list XPub;
  Unknowns : list Unknown
}.

(** ** Collaborators defined outside psbt.go *)

(** What psbt.go calls in the wire package and in the other files of the
    psbt package, none of which is part of the sources. "Consumed
    capabilities (external collaborators): unsigned-transaction legacy
    decode/encode"; the field tables are the [switch] on the key type inside
    [PInput.deserialize] and [POutput.deserialize]. *)
Class Externals : Type := {
  SerializeNoWitness : wire.MsgTx -> result bytes;
  DeserializeNoWitness : bytes -> result wire.MsgTx;
  ReadXPub : bytes -> bytes -> result XPub;
  SerializeBIP32Derivation : Z -> list Z -> bytes;
  PInput_field : PInput -> Z -> bytes -> bytes -> result PInput;
  PInput_serialize : PInput -> result bytes;
  POutput_field : POutput -> Z -> bytes -> bytes -> result POutput;
  POutput_serialize : POutput -> result bytes;
  IsSane : PInput -> bool
}.

(** Modelled from the spec: the framing of [PInput.deserialize] and
    [POutput.deserialize], which are missing from the sources: "each section
    is parsed field-by-field by declared key type until its end-of-section
    separator", every key read with [getKey] and every value with the
    bounded read. [fuel] bounds the number of records; a record takes at
    least two bytes, so one more than the length of the input is enough and
    the case [O] is not reached from the section readers
    ([sectionLoop_fuel]). *)
Fixpoint sectionLoop {A : Type} (field : A -> Z -> bytes -> bytes -> result A)
    (fuel : nat) (r : Reader) (a : A) : result (A * Reader) :=
  match fuel with
  | O => Err io_ErrUnexpectedEOF
  | S fuel =>
      '(keyCode, keyData, r) <- getKey r ;;
      if keyCode =? -1 then Ok (a, r)
      else
        '(value, r) <- wire.ReadVarBytes r MaxPsbtValueLength ;;
        a <- field a keyCode keyData value ;;
        sectionLoop field fuel r a
  end.

Section Psbt.

Context {ext : Externals}.

Definition PInput_deserialize (r : Reader) : result (PInput * Reader) :=
  sectionLoop PInput_field (S (length r)) r PInput_zero.

Definition POutput_deserialize (r : Reader) : result (POutput * Reader) :=
  sectionLoop POutput_field (S (length r)) r POutput_zero.

(** ** psbt.go *)

(** [validateUnsignedTX]: no input carries a signature script or a
    witness. *)
Fixpoint validateUnsignedTX_loop (txIn : list wire.TxIn) : bool :=
  match txIn with
  | [] => true
  | tin :: rest =>
      if negb (len (wire.SignatureScript tin) =? 0)
         || negb (Z.of_nat (length (wire.Witness tin)) =? 0)
      then false
      else validateUnsignedTX_loop rest
  end.

Definition validateUnsignedTX (tx : wire.MsgTx) : bool :=
  validateUnsignedTX_loop (wire.tx_TxIn tx).

(** [NewFromUnsignedTx]: [make([]PInput, n)] is [n] zero values. *)
Definition NewFromUnsignedTx (tx : wire.MsgTx) : result Packet :=
  if negb (validateUnsignedTX tx) then Err ErrInvalidRawTxSigned
  else
    let inSlice := repeat PInput_zero (length (wire.tx_TxIn tx)) in
    let outSlice := repeat POutput_zero (length (wire.tx_TxOut tx)) in
    let xPubSlice := [] in
    let unknownSlice := [] in
    Ok {| UnsignedTx := tx; Inputs := inSlice; Outputs := outSlice;
          XPubs := xPubSlice; Unknowns := unknownSlice |}.

(** [Packet.SanityCheck]; the Go [error] result is [None] for [nil]. *)
Fixpoint SanityCheck_inputs (ins : list PInput) : option error :=
  match ins with
  | [] => None
  | tin :: rest =>
      if negb (IsSane tin) then Some ErrInvalidPsbtFormat
      else SanityCheck_inputs rest
  end.

Definition SanityCheck (p : Packet) : option error :=
  if negb (validateUnsignedTX (UnsignedTx p)) then Some ErrInvalidRawTxSigned
  else SanityCheck_inputs (Inputs p).

(** *** NewFromRawBytes *)

(** The outcome of one turn of a [for { ... }] loop. *)
Inductive turn (S : Type) : Type :=
| Break (s : S)
| Continue (s : S).
Arguments Break {S} s.
Arguments Continue {S} s.

Definition globals : Type := (Reader * list XPub * list Unknown)%type.

(** Lines 199-238: the magic bytes, the first key, which must be the
    unsigned transaction with no key data, and its value. Returns the
    decoded transaction and the [keyData] variable, which stays in scope. *)
Definition readUnsignedTx (r : Reader) : result (wire.MsgTx * bytes * Reader) :=
  '(magic, r) <- ReadFull r psbtMagicLength ;;
  if negb (bytes_Equal magic psbtMagic) then Err ErrInvalidMagicBytes
  else
    '(keyCode, keyData, r) <- getKey r ;;
    if negb (GlobalType keyCode =? UnsignedTxType)
       || negb (len keyData =? 0)
    then Err ErrInvalidPsbtFormat
    else
      '(value, r) <- wire.ReadVarBytes r MaxPsbtValueLength ;;
      msgTx <- DeserializeNoWitness value ;;
      if negb (validateUnsignedTX msgTx) then Err ErrInvalidRawTxSigned
      else Ok (msgTx, keyData, r).

(** Lines 247-287: one turn of the loop over the remaining global keys.
    [keyData] is the variable of the first key, [keydata] the one of this
    turn; the duplicate test reads the former, as the source does. *)
Definition globalTurn (keyData : bytes) (g : globals) : result (turn globals) :=
  let '(r, xPubSlice, unknownSlice) := g in
  match getKey r with
  | Err _ => Err ErrInvalidPsbtFormat
  | Ok (keyint, keydata, r) =>
      if keyint =? -1 then Ok (Break (r, xPubSlice, unknownSlice))
      else
        '(value, r) <- wire.ReadVarBytes r MaxPsbtValueLength ;;
        if GlobalType keyint =? XPubType then
          xPub <- ReadXPub keydata value ;;
          if existsb (fun x => bytes_Equal (ExtendedKey x) keyData) xPubSlice
          then Err ErrDuplicateKey
          else Ok (Continue (r, xPubSlice ++ [xPub], unknownSlice))
        else
          let keyintanddata := byte.of_Z keyint :: keydata in
          let newUnknown := {| Key := keyintanddata; Value := value |} in
          Ok (Continue (r, xPubSlice, unknownSlice ++ [newUnknown]))
  end.

(** The loop itself. A turn that continues has read at least two bytes, so
    one more than the length of the input is fuel enough and the case [O] is
    not reached from [NewFromRawBytes] ([globalLoop_fuel]). *)
Fixpoint globalLoop (fuel : nat) (keyData : bytes) (g : globals)
    : result globals :=
  match fuel with
  | O => Err io_ErrUnexpectedEOF
  | S fuel =>
      t <- globalTurn keyData g ;;
      match t with
      | Break g' => Ok g'
      | Continue g' => globalLoop fuel keyData g'
      end
  end.

(** Lines 291-300: one input section for each input of the transaction. *)
Fixpoint readInputs (txIn : list wire.TxIn) (r : Reader)
    : result (list PInput * Reader) :=
  match txIn with
  | [] => Ok ([], r)
  | _ :: rest =>
      '(input, r) <- PInput_deserialize r ;;
      '(inSlice, r) <- readInputs rest r ;;
      Ok (input :: inSlice, r)
  end.

(** Lines 303-312: one output section for each output. *)
Fixpoint readOutputs (txOut : list wire.TxOut) (r : Reader)
    : result (list POutput * Reader) :=
  match txOut with
  | [] => Ok ([], r)
  | _ :: rest =>
      '(output, r) <- POutput_deserialize r ;;
      '(outSlice, r) <- readOutputs rest r ;;
      Ok (output :: outSlice, r)
  end.

(** [NewFromRawBytes(r, false)]: the reader is not base64-wrapped. Bytes
    after the last output section are left unread. *)
Definition NewFromRawBytes (r : Reader) : result Packet :=
  '(msgTx, keyData, r) <- readUnsignedTx r ;;
  '(r, xPubSlice, unknownSlice) <-
     globalLoop (S (length r)) keyData (r, [], []) ;;
  '(inSlice, r) <- readInputs (wire.tx_TxIn msgTx) r ;;
  '(outSlice, r) <- readOutputs (wire.tx_TxOut msgTx) r ;;
  let newPsbt := {| UnsignedTx := msgTx; Inputs := inSlice;
                    Outputs := outSlice; XPubs := xPubSlice;
                    Unknowns := unknownSlice |} in
  match SanityCheck newPsbt with
  | Some err => Err err
  | None => Ok newPsbt
  end.

(** *** Serialize *)



Fixpoint serializeUnknowns (unknowns : list Unknown) : bytes :=
  match unknowns with
  | [] => []
  | kv :: rest => serializeKVpair (Key kv) (Value kv) ++ serializeUnknowns rest
  end.




(** *** IsComplete *)

(** Modelled from the spec: [isFinalized] (finalizer.go) is missing from the
    sources: an input is finalized when its "final script-sig and/or final
    witness [is] populated". [p.Inputs[inIndex]] panics when the index is
    out of range: [None]. *)
Definition finalized (input : PInput) : bool :=
  match FinalScriptSig input, FinalScriptWitness input with
  | None, None => false
  | _, _ => true
  end.

Definition isFinalized (p : Packet) (inIndex : nat) : option bool :=
  match nth_error (Inputs p) inIndex with
  | Some input => Some (finalized input)
  | None => None
  end.

(** [Packet.IsComplete]: [i] runs from [i] to [i + n - 1]. *)
Fixpoint IsComplete_loop (p : Packet) (i n : nat) : option bool :=
  match n with
  | O => Some true
  | S n =>
      match isFinalized p i with
      | None => None
      | Some false => Some false
      | Some true => IsComplete_loop p (S i) n
      end
  end.

Definition IsComplete (p : Packet) : option bool :=
  IsComplete_loop p 0 (length (wire.tx_TxIn (UnsignedTx p))).

(** *** GetTxFee *)

(** [int64] arithmetic wraps around. *)
Definition int64 (z : Z) : Z := (z + 2 ^ 63) mod 2 ^ 64 - 2 ^ 63.

(** A method on [*Packet] takes the packet it points to and returns it as
    the call leaves it. *)
Definition method (A : Type) : Type := Packet -> result A * Packet.

Definition ret {A : Type} (a : A) : method A := fun p => (Ok a, p).

Definition fail {A : Type} (e : error) : method A := fun p => (Err e, p).

Definition read {A : Type} (f : Packet -> A) : method A := fun p => (Ok (f p), p).

Definition mbind {A B : Type} (m : method A) (k : A -> method B) : method B :=
  fun p => match m p with
           | (Ok a, p') => k a p'
           | (Err e, p') => (Err e, p')
           end.

(** Modelled from the spec: [SumUtxoInputValues] (utils.go) is missing from
    the sources: it "sums each input's value from its associated UTXO
    information (witness UTXO value, or the referenced previous output's
    value from a full non-witness UTXO)" and "fails with a missing-UTXO error
    if any input lacks UTXO information". *)
Definition utxoValue (tx : wire.MsgTx) (idx : nat) (input : PInput) : option Z :=
  match WitnessUtxo input with
  | Some out => Some (wire.Value out)
  | None =>
      match NonWitnessUtxo input, nth_error (wire.tx_TxIn tx) idx with
      | Some prev, Some txIn =>
          let opIdx := wire.Index (wire.PreviousOutPoint txIn) in
          option_map wire.Value (nth_error (wire.tx_TxOut prev) (Z.to_nat opIdx))
      | _, _ => None
      end
  end.

Fixpoint sumUtxo (tx : wire.MsgTx) (idx : nat) (ins : list PInput)
    (inputSum : Z) : result Z :=
  match ins with
  | [] => Ok inputSum
  | input :: rest =>
      match utxoValue tx idx input with
      | Some v => sumUtxo tx (S idx) rest (int64 (inputSum + v))
      | None => Err ErrMissingUtxo
      end
  end.

Definition SumUtxoInputValues : method Z :=
  mbind (read (fun p => sumUtxo (UnsignedTx p) 0 (Inputs p) 0))
        (fun s => match s with Ok v => ret v | Err e => fail e end).

(** [Packet.GetTxFee]. *)
Fixpoint sumOutputs_loop (txOut : list wire.TxOut) (sumOutputs : Z) : Z :=
  match txOut with
  | [] => sumOutputs
  | txOut :: rest => sumOutputs_loop rest (int64 (sumOutputs + wire.Value txOut))
  end.

Definition GetTxFee : method Z :=
  mbind SumUtxoInputValues (fun sumInputs =>
  mbind (read (fun p => sumOutputs_loop (wire.tx_TxOut (UnsignedTx p)) 0))
        (fun sumOutputs =>
  let fee := int64 (sumInputs - sumOutputs) in
  ret fee)).

End Psbt.

(** * Reference collaborators

    One instance of [Externals], to run the parser and the serializer on
    concrete packets and byte streams. *)

Module Reference.

(** Bytes written in hexadecimal. *)
Definition nibble (c : ascii) : Z :=
  let n := Z.of_nat (nat_of_ascii c) in
  if (48 <=? n) && (n <=? 57) then n - 48
  else if (97 <=? n) && (n <=? 102) then n - 87
  else 0.

Fixpoint hex (s : string) : bytes :=
  match s with
  | String hi (String lo rest) =>
      byte.of_Z (16 * nibble hi + nibble lo) :: hex rest
  | _ => []
  end.
Arguments hex s%_string.

Fixpoint readMany {A : Type} (item : Reader -> result (A * Reader))
    (count : nat) (r : Reader) : result (list A * Reader) :=
  match count with
  | O => Ok ([], r)
  | S count =>
      '(a, r) <- item r ;;
      '(l, r) <- readMany item count r ;;
      Ok (a :: l, r)
  end.

(** Modelled from the spec: [MsgTx.SerializeNoWitness] and
    [MsgTx.DeserializeNoWitness] of the wire package, which is not part of
    the sources: "the legacy (non-witness) transaction encoding": version,
    inputs (previous output, script, sequence), outputs (value, script)
    and lock time, integers little-endian, counts and scripts
    length-prefixed. The limits of the wire package on counts and script
    sizes are left out; a count above the number of bytes left is refused
    at once. *)
Definition writeTxIn (ti : wire.TxIn) : bytes :=
  wire.Hash (wire.PreviousOutPoint ti)
    ++ le_split 4 (wire.Index (wire.PreviousOutPoint ti))
    ++ wire.WriteVarBytes (wire.SignatureScript ti)
    ++ le_split 4 (wire.Sequence ti).

Definition writeTxOut (to : wire.TxOut) : bytes :=
  le_split 8 (wire.Value to) ++ wire.WriteVarBytes (wire.PkScript to).

Definition legacyEncode (tx : wire.MsgTx) : bytes :=
  le_split 4 (wire.tx_Version tx)
    ++ wire.WriteVarInt (Z.of_nat (length (wire.tx_TxIn tx)))
    ++ concat (map writeTxIn (wire.tx_TxIn tx))
    ++ wire.WriteVarInt (Z.of_nat (length (wire.tx_TxOut tx)))
    ++ concat (map writeTxOut (wire.tx_TxOut tx))
    ++ le_split 4 (wire.tx_LockTime tx).

Definition int32 (z : Z) : Z := (z + 2 ^ 31) mod 2 ^ 32 - 2 ^ 31.

Definition readTxIn (r : Reader) : result (wire.TxIn * Reader) :=
  '(hash, r) <- ReadFull r 32 ;;
  '(index, r) <- wire.readUint 4 r ;;
  '(script, r) <- wire.ReadVarBytes r (len r) ;;
  '(sequence, r) <- wire.readUint 4 r ;;
  Ok ({| wire.PreviousOutPoint := {| wire.Hash := hash; wire.Index := index |};
         wire.SignatureScript := script; wire.Witness := [];
         wire.Sequence := sequence |},
      r).

Definition readTxOut (r : Reader) : result (wire.TxOut * Reader) :=
  '(value, r) <- wire.readUint 8 r ;;
  '(script, r) <- wire.ReadVarBytes r (len r) ;;
  Ok ({| wire.Value := int64 value; wire.PkScript := script |}, r).

Definition legacyDecode (b : bytes) : result wire.MsgTx :=
  '(version, r) <- wire.readUint 4 b ;;
  '(count, r) <- wire.ReadVarInt r ;;
  if count >? len r then Err wire_MessageError
  else
    '(txIn, r) <- readMany readTxIn (Z.to_nat count) r ;;
    '(count, r) <- wire.ReadVarInt r ;;
    if count >? len r then Err wire_MessageError
    else
      '(txOut, r) <- readMany readTxOut (Z.to_nat count) r ;;
      '(lockTime, r) <- wire.readUint 4 r ;;
      Ok {| wire.tx_Version := int32 version; wire.tx_TxIn := txIn;
            wire.tx_TxOut := txOut; wire.tx_LockTime := lockTime |}.

(** Modelled from the spec: [SerializeBIP32Derivation] and [ReadXPub]
    (bip32.go and types.go are not part of the sources): "key bytes =
    serialized extended key, value = 4-byte master fingerprint +
    derivation path as 4-byte little-endian indices"; the key is
    opaque. *)
Definition bip32Bytes (fingerprint : Z) (path : list Z) : bytes :=
  le_split 4 fingerprint ++ concat (map (le_split 4) path).

Fixpoint readPath (count : nat) (b : bytes) : list Z :=
  match count with
  | O => []
  | S count => le_combine (firstn 4 b) :: readPath count (skipn 4 b)
  end.

Definition readXPub (keyData path : bytes) : result XPub :=
  if (len path mod 4 =? 0) && (4 <=? len path) then
    Ok {| ExtendedKey := keyData;
          MasterKeyFingerprint := le_combine (firstn 4 path);
          Bip32Path := readPath (Z.to_nat (len path / 4 - 1)) (skipn 4 path) |}
  else Err ErrInvalidPsbtFormat.

(** A field table that knows no field kind: every record of a section goes
    to the unknown pairs, "original type byte prepended to the stored
    key", and only those are written back. The sections of the examples
    are empty or hold such records only. *)
Definition inputField (pi : PInput) (keyCode : Z) (keyData value : bytes)
  : result PInput :=
  let u := {| Key := byte.of_Z keyCode :: keyData; Value := value |} in
  Ok {| NonWitnessUtxo := NonWitnessUtxo pi; WitnessUtxo := WitnessUtxo pi;
        PartialSigs := PartialSigs pi; SighashType := SighashType pi;
        RedeemScript := RedeemScript pi; WitnessScript := WitnessScript pi;
        Bip32Derivations := Bip32Derivations pi;
        FinalScriptSig := FinalScriptSig pi;
        FinalScriptWitness := FinalScriptWitness pi;
        in_Unknowns := in_Unknowns pi ++ [u] |}.

Definition outputField (po : POutput) (keyCode : Z) (keyData value : bytes)
  : result POutput :=
  let u := {| Key := byte.of_Z keyCode :: keyData; Value := value |} in
  Ok {| out_RedeemScript := out_RedeemScript po;
        out_WitnessScript := out_WitnessScript po;
        out_Bip32Derivations := out_Bip32Derivations po;
        out_Unknowns := out_Unknowns po ++ [u] |}.

(** Modelled from the spec: [PInput.IsSane] (partial_input.go is not part
    of the sources): "an input must not simultaneously claim a final
    script-sig/witness and also carry incompatible partial-signing
    fields"; "treat any finalized-input-with-nonempty-unfinalized-fields
    combination as invalid". *)
Definition isSane (pi : PInput) : bool :=
  match FinalScriptSig pi, FinalScriptWitness pi with
  | None, None => true
  | _, _ =>
      match PartialSigs pi, RedeemScript pi, WitnessScript pi,
            Bip32Derivations pi with
      | [], None, None, [] => true
      | _, _, _, _ => false
      end
  end.

#[export] Instance externals : Externals := {|
  SerializeNoWitness := fun tx => Ok (legacyEncode tx);
  DeserializeNoWitness := legacyDecode;
  ReadXPub := readXPub;
  SerializeBIP32Derivation := bip32Bytes;
  PInput_field := inputField;
  PInput_serialize := fun pi => Ok (serializeUnknowns (in_Unknowns pi));
  POutput_field := outputField;
  POutput_serialize := fun po => Ok (serializeUnknowns (out_Unknowns po));
  IsSane := isSane
|}.

End Reference.

(** * Vocabulary of the claims *)

(** A transaction is signed when some input carries a signature script or a
    witness. *)
Definition Signed (tx : wire.MsgTx) : Prop :=
  Exists (fun tin => wire.SignatureScript tin <> [] \/ wire.Witness tin <> [])
         (wire.tx_TxIn tx).

(** An input is in the finalized state when its final script-sig or its
    final witness is populated. *)
Definition Finalized (input : PInput) : Prop :=
  FinalScriptSig input <> None \/ FinalScriptWitness input <> None.

(** The UTXO value of each input, where it has one. *)
Fixpoint utxoValues (tx : wire.MsgTx) (idx : nat) (ins : list PInput)
    : list (option Z) :=
  match ins with
  | [] => []
  | input :: rest => utxoValue tx idx input :: utxoValues tx (S idx) rest
  end.

Definition inputValues (p : Packet) : list (option Z) :=
  utxoValues (UnsignedTx p) 0 (Inputs p).

Definition Zsum (l : list Z) : Z := fold_right Z.add 0 l.

Definition orZero (o : option Z) : Z :=
  match o with
  | Some v => v
  | None => 0
  end.

(** The exact sums of the fee claim, over the integers. *)
Definition inputTotal (p : Packet) : Z := Zsum (map orZero (inputValues p)).

Definition outputTotal (p : Packet) : Z :=
  Zsum (map wire.Value (wire.tx_TxOut (UnsignedTx p))).





Section Vocabulary.

Context {ext : Externals}.

Definition Insane (p : Packet) : Prop :=
  Exists (fun tin => IsSane tin = false) (Inputs p).

Definition reader (g : globals) : Reader := fst (fst g).

(** [GlobalReach keyData g g']: from [g], the loop over the global keys
    arrives at [g'] after some turns, none of which failed or met the
    separator. *)
Inductive GlobalReach (keyData : bytes) : globals -> globals -> Prop :=
| reach_here (g : globals) : GlobalReach keyData g g
| reach_turn (g g' g'' : globals) :
    globalTurn keyData g = Ok (Continue g') ->
    GlobalReach keyData g' g'' ->
    GlobalReach keyData g g''.









End Vocabulary.

(** * Example packets and streams *)

Module Examples.
Import Reference.

Definition outPoint0 : wire.OutPoint :=
  {| wire.Hash := repeat Init.Byte.x00 32; wire.Index := 0 |}.

Definition txIn0 : wire.TxIn :=
  {| wire.PreviousOutPoint := outPoint0; wire.SignatureScript := [];
     wire.Witness := []; wire.Sequence := 0xffffffff |}.

Definition txInSigned : wire.TxIn :=
  {| wire.PreviousOutPoint := outPoint0; wire.SignatureScript := hex "51";
     wire.Witness := []; wire.Sequence := 0xffffffff |}.

Definition txOutOf (value : Z) : wire.TxOut :=
  {| wire.Value := value; wire.PkScript := [] |}.

Definition txOf (ins : list wire.TxIn) (outs : list wire.TxOut)
  : wire.MsgTx :=
  {| wire.tx_Version := 2; wire.tx_TxIn := ins; wire.tx_TxOut := outs;
     wire.tx_LockTime := 0 |}.

(** One input, one output, unsigned. *)
Definition tx11 : wire.MsgTx := txOf [txIn0] [txOutOf 1000].

(** The same with a signature script on its input. *)
Definition tx11Signed : wire.MsgTx := txOf [txInSigned] [txOutOf 1000].

(** Two inputs, one output. *)
Definition tx21 : wire.MsgTx := txOf [txIn0; txIn0] [txOutOf 150000].

(** The master extended public key of the first BIP-32 test vector, at
    depth 0, and its fingerprint. *)
Definition xpubKey : bytes :=
  hex "0488b21e000000000000000000"
    ++ hex "873dff81c02f525623fd1fe5167eac3a55a049de3d314bb42ee227ffed37d508"
    ++ hex "0339a36013301597daef41fbe593a02cc513d0b55527ec2df1050e2e8ff49c85c2".

Definition xpub0 : XPub :=
  {| ExtendedKey := xpubKey; MasterKeyFingerprint := 0x3e194234;
     Bip32Path := [] |}.

Definition packetOf (tx : wire.MsgTx) (ins : list PInput)
    (xs : list XPub) (us : list Unknown) : Packet :=
  {| UnsignedTx := tx; Inputs := ins;
     Outputs := repeat POutput_zero (length (wire.tx_TxOut tx));
     XPubs := xs; Unknowns := us |}.

(** A packet with one extended key and one unknown pair of type 0xfc. *)
Definition packetGood : Packet :=
  packetOf tx11 [PInput_zero] [xpub0]
    [ {| Key := hex "fc01"; Value := hex "aa" |} ].


(** The same extended key twice. *)
Definition packetTwice : Packet :=
  packetOf tx11 [PInput_zero] [xpub0; xpub0] [].

(** The bytes of a stream: magic, unsigned transaction, the records
    [globals], separator, one empty input section, one empty output
    section. *)
Definition streamOf (tx : wire.MsgTx) (globals : bytes) : bytes :=
  psbtMagic ++ hex "0100" ++ wire.WriteVarBytes (legacyEncode tx)
    ++ globals ++ hex "00" ++ hex "00" ++ hex "00".

Definition xpubRecord : bytes :=
  hex "4f01" ++ xpubKey ++ hex "04" ++ hex "3442193e".

(** Two records with the same extended key. *)
Definition streamTwice : bytes := streamOf tx11 (xpubRecord ++ xpubRecord).

(** The embedded transaction is signed. *)
Definition streamSigned : bytes := streamOf tx11Signed [].

(** The first key has the type of an extended key. *)
Definition streamFirstKey01 : bytes := psbtMagic ++ hex "0101" ++ hex "00".

(** Behind the transaction, a key that declares 10001 bytes. *)
Definition streamLongKey : bytes :=
  psbtMagic ++ hex "0100" ++ wire.WriteVarBytes (legacyEncode tx11)
    ++ hex "fd1127".


(** A signed transaction inside a packet. *)
Definition packetSigned : Packet := packetOf tx11Signed [PInput_zero] [] [].

(** A finalized input. *)
Definition inputFinal : PInput :=
  {| NonWitnessUtxo := None; WitnessUtxo := None; PartialSigs := [];
     SighashType := 0; RedeemScript := None; WitnessScript := None;
     Bip32Derivations := []; FinalScriptSig := Some (hex "51");
     FinalScriptWitness := None; in_Unknowns := [] |}.

(** An input with a final witness that still has its witness script, and no
    witness UTXO. *)
Definition inputInsane : PInput :=
  {| NonWitnessUtxo := None; WitnessUtxo := None; PartialSigs := [];
     SighashType := 0; RedeemScript := None;
     WitnessScript := Some (hex "51"); Bip32Derivations := [];
     FinalScriptSig := None; FinalScriptWitness := Some (hex "0151");
     in_Unknowns := [] |}.

Definition packetInsane : Packet := packetOf tx11 [inputInsane] [] [].

(** Two inputs, the first finalized. *)
Definition packetHalf : Packet := packetOf tx21 [inputFinal; PInput_zero] [] [].

(** An input with a witness UTXO of the given value. *)
Definition inputWorth (value : Z) : PInput :=
  {| NonWitnessUtxo := None; WitnessUtxo := Some (txOutOf value);
     PartialSigs := []; SighashType := 0; RedeemScript := None;
     WitnessScript := None; Bip32Derivations := []; FinalScriptSig := None;
     FinalScriptWitness := None; in_Unknowns := [] |}.

(** Two inputs worth 100,000 each, one output of 150,000. *)
Definition packetFee : Packet :=
  packetOf tx21 [inputWorth 100000; inputWorth 100000] [] [].

(** The same without the UTXO of the second input. *)
Definition packetNoUtxo : Packet :=
  packetOf tx21 [inputWorth 100000; PInput_zero] [] [].

(** One input worth 1 and two outputs of the largest [int64] each. *)
Definition packetOverflow : Packet :=
  packetOf (txOf [txIn0] [txOutOf (2 ^ 63 - 1); txOutOf (2 ^ 63 - 1)])
    [inputWorth 1] [] [].

End Examples.

(** * partialsig.go: the sorter of partial signatures *)

(** [bytes.Compare]: -1, 0 or 1 as [a] is below, equal to or above [b] in
    the lexicographic order of the byte values. *)
Fixpoint bytes_Compare (a b : bytes) : Z :=
  match a, b with
  | [], [] => 0
  | [], _ :: _ => -1
  | _ :: _, [] => 1
  | x :: a', y :: b' =>
      if byte.unsigned x <? byte.unsigned y then -1
      else if byte.unsigned y <? byte.unsigned x then 1
      else bytes_Compare a' b'
  end.

(** [PartialSigSorter], a slice of pointers to partial signatures. The
    methods change no signature, so an element is modelled by the signature
    it points to, and the elements are taken to be non-nil. The indices are
    [nat]: a negative [int] is out of range like one that is too large. An
    index out of range panics: [None]. *)
Definition PartialSigSorter : Type := list PartialSig.

(** [s[i] = v] on a slice, for [i] in range. *)
Fixpoint store {A : Type} (s : list A) (i : nat) (v : A) : list A :=
  match s, i with
  | [], _ => []
  | _ :: rest, O => v :: rest
  | x :: rest, S i => x :: store rest i v
  end.

Definition PartialSigSorter_Len (s : PartialSigSorter) : Z :=
  Z.of_nat (length s).

(** [s[i], s[j] = s[j], s[i]]: both elements are read, then both are
    written. Returns the slice as the call leaves it. *)
Definition PartialSigSorter_Swap (s : PartialSigSorter) (i j : nat)
  : option PartialSigSorter :=
  match nth_error s i, nth_error s j with
  | Some si, Some sj => Some (store (store s i sj) j si)
  | _, _ => None
  end.

Definition PartialSigSorter_Less (s : PartialSigSorter) (i j : nat)
  : option bool :=
  match nth_error s i, nth_error s j with
  | Some si, Some sj => Some (bytes_Compare (PubKey si) (PubKey sj) <? 0)
  | _, _ => None
  end.

(** * More vocabulary *)

(** The reader of a loop state moved to a longer input. *)
Definition globals_more (x : bytes) (g : globals) : globals :=
  let '(r, xs, us) := g in (r ++ x, xs, us).

Definition turn_more (x : bytes) (t : turn globals) : turn globals :=
  match t with
  | Break g => Break (globals_more x g)
  | Continue g => Continue (globals_more x g)
  end.

(** * More example packets and streams *)

Module MoreExamples.
Import Reference Examples.

(** The magic bytes with a wrong last byte. *)
Definition magicWrong : bytes := hex "7073627400".

(** An extended key and an unknown pair of type 0xfc. *)
Definition streamGood : bytes :=
  streamOf tx11 (xpubRecord ++ hex "02fc0101aa").


(** The stream ends behind a global key of type 5. *)
Definition streamNoValue : bytes :=
  psbtMagic ++ hex "0100" ++ wire.WriteVarBytes (legacyEncode tx11)
    ++ hex "0105".

(** One transaction input and two input sections, the second one not
    finalized. *)
Definition packetExtraInput : Packet :=
  packetOf tx11 [inputFinal; PInput_zero] [] [].

(** Two inputs worth 100 each, one output of 150,000. *)
Definition packetUnderfunded : Packet :=
  packetOf tx21 [inputWorth 100; inputWorth 100] [] [].

Definition sigOf (pubKey : bytes) : PartialSig :=
  {| PubKey := pubKey; Signature := [] |}.

Definition sorter3 : PartialSigSorter :=
  [sigOf (hex "03aa"); sigOf (hex "02ff"); sigOf (hex "03")].

End MoreExamples.

(** * Properties of the readers and writers *)

Ltac inv H := inversion H; subst; clear H.

(** Case analysis on the scrutinee of the first [bind] or [match] in a
    hypothesis that a computation returned [Ok]. *)
Ltac step_ok H :=
  match type of H with
  | bind ?c _ = _ =>
      let E := fresh "E" in
      destruct c eqn:E; cbn [bind] in H; [ | discriminate H ]
  | (match ?c with Ok _ => _ | Err _ => _ end) = _ =>
      let E := fresh "E" in
      destruct c eqn:E; [ | try discriminate H ]
  | (let '(_, _) := ?c in _) = _ => destruct c
  | (match ?c with (_, _) => _ end) = _ => destruct c
  | (if ?c then _ else _) = _ =>
      let E := fresh "E" in
      destruct c eqn:E; try discriminate H
  end.

Lemma len_app (a b : bytes) : len (a ++ b) = len a + len b.
Proof. unfold len. rewrite length_app. lia. Qed.

Lemma len_nonneg (a : bytes) : 0 <= len a.
Proof. unfold len. lia. Qed.

Lemma bytes_Equal_eq (a b : bytes) : bytes_Equal a b = true <-> a = b.
Proof.
  revert b. induction a as [| x a IH]; intros [| y b]; cbn; try easy.
  rewrite andb_true_iff, IH. split.
  - intros [Hxy ->]. f_equal. now apply Byte.byte_dec_bl.
  - intros H. inv H. split; [ now apply Byte.byte_dec_lb | reflexivity ].
Qed.

Lemma bytes_Equal_refl (a : bytes) : bytes_Equal a a = true.
Proof. now apply bytes_Equal_eq. Qed.

Lemma bytes_Equal_nil (a : bytes) : bytes_Equal a [] = true <-> a = [].
Proof. apply bytes_Equal_eq. Qed.

Lemma ReadFull_app (b rest : bytes) : ReadFull (b ++ rest) (len b) = Ok (b, rest).
Proof.
  unfold ReadFull. rewrite len_app.
  destruct (Z.leb_spec (len b) (len b + len rest)) as [_ | H].
  - unfold len. rewrite Nat2Z.id, firstn_app, skipn_app, Nat.sub_diag.
    rewrite firstn_all, skipn_all. cbn. now rewrite app_nil_r.
  - pose proof (len_nonneg rest). lia.
Qed.

Lemma ReadFull_Ok (r : Reader) (n : Z) (b : bytes) (r' : Reader) :
  ReadFull r n = Ok (b, r') ->
  r = b ++ r' /\ (0 <= n -> len b = n).
Proof.
  unfold ReadFull. destruct (Z.leb_spec n (len r)) as [Hle | Hgt].
  - intros H. inv H. split.
    + now rewrite firstn_skipn.
    + intros Hn. unfold len in *. rewrite length_firstn. lia.
  - destruct r; discriminate.
Qed.

Lemma ReadFull_shrinks (r : Reader) (n : Z) (b : bytes) (r' : Reader) :
  ReadFull r n = Ok (b, r') -> 0 < n -> (length r' < length r)%nat.
Proof.
  intros H Hn. apply ReadFull_Ok in H. destruct H as [-> Hlen].
  rewrite length_app. unfold len in Hlen. lia.
Qed.

Module wire_facts.
Import wire.

Lemma readUint_Ok (w : Z) (r : Reader) (v : Z) (r' : Reader) :
  readUint w r = Ok (v, r') -> 0 < w ->
  (length r' < length r)%nat /\ 0 <= v < 2 ^ (8 * w).
Proof.
  unfold readUint. intros H Hw. step_ok H. destruct a as [b r0]. inv H.
  split; [ eapply ReadFull_shrinks; eauto | ].
  apply ReadFull_Ok in E. destruct E as [_ Hlen].
  pose proof (le_combine_bound b) as Hb. unfold len in Hlen.
  replace (8 * w) with (8 * Z.of_nat (length b)) by lia. exact Hb.
Qed.



Lemma ReadVarInt_Ok (r : Reader) (v : Z) (r' : Reader) :
  ReadVarInt r = Ok (v, r') ->
  (length r' < length r)%nat /\ 0 <= v < 2 ^ 64.
Proof.
  unfold ReadVarInt. intros H. step_ok H. destruct a as [d r0].
  apply readUint_Ok in E; [ | lia ]. destruct E as [Hr0 Hd].
  change (2 ^ (8 * 1)) with 256 in Hd.
  change (2 ^ 64) with 18446744073709551616.
  destruct (d =? 0xff); [ | destruct (d =? 0xfe); [ | destruct (d =? 0xfd) ] ].
  4: { inv H. lia. }
  all: step_ok H; destruct a as [sv r1];
    apply readUint_Ok in E; [ | lia ]; destruct E as [Hr1 Hsv];
    step_ok H; inv H.
  all: change (2 ^ (8 * 2)) with 65536 in *;
    change (2 ^ (8 * 4)) with 4294967296 in *;
    change (2 ^ (8 * 8)) with 18446744073709551616 in *; lia.
Qed.


Lemma ReadVarBytes_Ok (r : Reader) (m : Z) (b : bytes) (r' : Reader) :
  ReadVarBytes r m = Ok (b, r') ->
  (length r' < length r)%nat /\ len b <= m.
Proof.
  unfold ReadVarBytes. intros H. step_ok H. destruct a as [count r0].
  apply ReadVarInt_Ok in E. destruct E as [Hr0 Hc].
  step_ok H. apply ReadFull_Ok in H. destruct H as [-> Hlen].
  rewrite length_app in Hr0. split; [ lia | ].
  rewrite Hlen by lia. lia.
Qed.



End wire_facts.

(** ** Keys *)

Lemma getKey_Ok (r : Reader) (k : Z) (kd : bytes) (r' : Reader) :
  getKey r = Ok (k, kd, r') ->
  (length r' < length r)%nat /\ (k = -1 \/ 0 <= k <= MaxPsbtKeyValue).
Proof.
  unfold getKey. intros H.
  destruct (wire.ReadVarInt r) as [[count r0] | ] eqn:E; [ | discriminate ].
  apply wire_facts.ReadVarInt_Ok in E. destruct E as [Hr0 Hc].
  destruct (Z.eqb_spec count 0) as [-> | Hnz].
  - inv H. split; [ lia | now left ].
  - step_ok H. step_ok H. destruct a as [key r1].
    apply ReadFull_Ok in E0. destruct E0 as [-> _].
    destruct (wire.ReadVarInt key) as [[keyType keyData] | ] eqn:E1;
      [ | discriminate ].
    apply wire_facts.ReadVarInt_Ok in E1. destruct E1 as [_ Hk].
    destruct (Z.gtb_spec keyType MaxPsbtKeyValue); [ discriminate | ].
    inv H. rewrite length_app in Hr0. split; [ lia | right; lia ].
Qed.




(** ** Sections *)


Lemma sectionLoop_S (A : Type)
    (field : A -> Z -> bytes -> bytes -> result A) (f : nat) (r : Reader)
    (a : A) :
  sectionLoop field (S f) r a
  = ('(keyCode, keyData, r1) <- getKey r ;;
     if keyCode =? -1 then Ok (a, r1)
     else
       '(value, r2) <- wire.ReadVarBytes r1 MaxPsbtValueLength ;;
       a' <- field a keyCode keyData value ;;
       sectionLoop field f r2 a').
Proof. reflexivity. Qed.


Section PsbtFacts.

Context {ext : Externals}.

Lemma globalTurn_shrinks (keyData : bytes) (g : globals) (t : turn globals) :
  globalTurn keyData g = Ok t ->
  match t with
  | Break g' | Continue g' => (length (reader g') < length (reader g))%nat
  end.
Proof.
  destruct g as [[r xs] us]. unfold globalTurn, reader. cbn [fst]. intros H.
  destruct (getKey r) as [[[k kd] r0] | ] eqn:E; [ | discriminate ].
  apply getKey_Ok in E. destruct E as [Hr0 _].
  destruct (k =? -1); [ inv H; exact Hr0 | ].
  step_ok H. destruct a as [v r1].
  apply wire_facts.ReadVarBytes_Ok in E. destruct E as [Hr1 _].
  destruct (GlobalType k =? XPubType).
  - step_ok H. step_ok H. inv H. cbn [fst]. lia.
  - inv H. cbn [fst]. lia.
Qed.

Lemma globalLoop_fuel (f1 f2 : nat) (keyData : bytes) (g : globals) :
  (length (reader g) < f1)%nat -> (length (reader g) < f2)%nat ->
  globalLoop f1 keyData g = globalLoop f2 keyData g.
Proof.
  revert f2 g. induction f1 as [| f1 IH]; intros [| f2] g H1 H2; try lia.
  cbn [globalLoop].
  destruct (globalTurn keyData g) as [t | ] eqn:E; [ | reflexivity ].
  apply globalTurn_shrinks in E. cbn [bind].
  destruct t as [g' | g']; [ reflexivity | ]. apply IH; lia.
Qed.

Lemma globalLoop_S (f : nat) (keyData : bytes) (g : globals) :
  globalLoop (S f) keyData g
  = (t <- globalTurn keyData g ;;
     match t with
     | Break g' => Ok g'
     | Continue g' => globalLoop f keyData g'
     end).
Proof. reflexivity. Qed.

(** The global loop, one turn at a time, free of fuel. *)
Lemma globalLoop_unfold (keyData : bytes) (g : globals) :
  globalLoop (S (length (reader g))) keyData g
  = (t <- globalTurn keyData g ;;
     match t with
     | Break g' => Ok g'
     | Continue g' => globalLoop (S (length (reader g'))) keyData g'
     end).
Proof.
  rewrite globalLoop_S.
  destruct (globalTurn keyData g) as [t | ] eqn:E; [ | reflexivity ].
  apply globalTurn_shrinks in E. cbn [bind].
  destruct t as [g' | g']; [ reflexivity | ]. apply globalLoop_fuel; lia.
Qed.

Lemma globalLoop_reach (keyData : bytes) (g g' : globals) :
  GlobalReach keyData g g' ->
  globalLoop (S (length (reader g))) keyData g
  = globalLoop (S (length (reader g'))) keyData g'.
Proof.
  induction 1 as [g | g g' g'' Hturn _ IH]; [ reflexivity | ].
  rewrite globalLoop_unfold, Hturn. cbn [bind]. exact IH.
Qed.

End PsbtFacts.

Section SimpleClaims.

Context {ext : Externals}.

Lemma validateUnsignedTX_loop_false (txIn : list wire.TxIn) :
  validateUnsignedTX_loop txIn = false
  <-> Exists (fun tin => wire.SignatureScript tin <> []
                         \/ wire.Witness tin <> []) txIn.
Proof.
  induction txIn as [| tin rest IH]; cbn [validateUnsignedTX_loop].
  - split; [ discriminate | intros H; inv H ].
  - unfold len.
    destruct (wire.SignatureScript tin) as [| b s] eqn:Es;
      destruct (wire.Witness tin) as [| w ws] eqn:Ew; cbn.
    + rewrite IH. split; [ now right | ].
      intros H. inv H; [ | assumption ].
      rewrite Es, Ew in *. now destruct H1.
    + split; [ intros _; left; rewrite Ew; now right | reflexivity ].
    + split; [ intros _; left; rewrite Es; now left | reflexivity ].
    + split; [ intros _; left; rewrite Es; now left | reflexivity ].
Qed.

Lemma validateUnsignedTX_false (tx : wire.MsgTx) :
  validateUnsignedTX tx = false <-> Signed tx.
Proof. apply validateUnsignedTX_loop_false. Qed.

Lemma validateUnsignedTX_true (tx : wire.MsgTx) :
  validateUnsignedTX tx = true <-> ~ Signed tx.
Proof.
  rewrite <- validateUnsignedTX_false.
  destruct (validateUnsignedTX tx); split; congruence.
Qed.

Lemma SanityCheck_inputs_spec (ins : list PInput) :
  (Exists (fun tin => IsSane tin = false) ins
   -> SanityCheck_inputs ins = Some ErrInvalidPsbtFormat)
  /\ (Forall (fun tin => IsSane tin = true) ins
      -> SanityCheck_inputs ins = None).
Proof.
  induction ins as [| tin rest [IHe IHf]]; cbn [SanityCheck_inputs]; split.
  - intros H; inv H.
  - reflexivity.
  - intros H. destruct (IsSane tin) eqn:E; [ | reflexivity ].
    cbn. inv H; [ congruence | now apply IHe ].
  - intros H. inv H. rewrite H2. cbn. now apply IHf.
Qed.

Lemma SanityCheck_None (p : Packet) :
  ~ Signed (UnsignedTx p) ->
  Forall (fun tin => IsSane tin = true) (Inputs p) ->
  SanityCheck p = None.
Proof.
  intros Hu Hs. unfold SanityCheck.
  apply validateUnsignedTX_true in Hu. rewrite Hu. cbn.
  now apply SanityCheck_inputs_spec.
Qed.

Lemma SanityCheck_None_inv (p : Packet) :
  SanityCheck p = None -> validateUnsignedTX (UnsignedTx p) = true.
Proof.
  unfold SanityCheck. destruct (validateUnsignedTX (UnsignedTx p));
    [ reflexivity | discriminate ].
Qed.

(** C3, as the code has it: when the sanity check fails, the error is
    ErrInvalidRawTxSigned if the embedded transaction is signed, and
    ErrInvalidPsbtFormat if the transaction is unsigned and some input is
    not sane. *)
Theorem SanityCheck_failure (p : Packet) :
  Signed (UnsignedTx p) \/ Insane p ->
  (Signed (UnsignedTx p) /\ SanityCheck p = Some ErrInvalidRawTxSigned)
  \/ (~ Signed (UnsignedTx p) /\ SanityCheck p = Some ErrInvalidPsbtFormat).
Proof.
  intros H. unfold SanityCheck.
  destruct (validateUnsignedTX (UnsignedTx p)) eqn:E.
  - right. apply validateUnsignedTX_true in E. split; [ exact E | ].
    destruct H as [H | H]; [ contradiction | ].
    cbn. now apply SanityCheck_inputs_spec.
  - left. apply validateUnsignedTX_false in E. now split.
Qed.

(** *** IsComplete *)

Lemma finalized_true (input : PInput) :
  finalized input = true <-> Finalized input.
Proof.
  unfold finalized, Finalized.
  destruct (FinalScriptSig input), (FinalScriptWitness input);
    split; intros H; try reflexivity; try discriminate;
    try (left; discriminate); try (right; discriminate).
  destruct H as [H | H]; now elim H.
Qed.

Lemma finalized_false (input : PInput) :
  finalized input = false <-> ~ Finalized input.
Proof.
  rewrite <- finalized_true. destruct (finalized input); split; congruence.
Qed.

Lemma IsComplete_loop_forallb (p : Packet) (done rest : list PInput) :
  Inputs p = done ++ rest ->
  IsComplete_loop p (length done) (length rest)
  = Some (forallb finalized rest).
Proof.
  revert done. induction rest as [| input rest IH]; intros done Hp.
  - reflexivity.
  - cbn [length IsComplete_loop forallb]. unfold isFinalized.
    rewrite Hp, nth_error_app2, Nat.sub_diag by lia. cbn [nth_error].
    destruct (finalized input); [ | reflexivity ]. cbn [andb].
    specialize (IH (done ++ [input])).
    rewrite length_app, Nat.add_1_r, <- app_assoc in IH. now apply IH.
Qed.

(** C5: on a packet with one input section for each input of the
    transaction, IsComplete returns true exactly when every input is
    finalized, and false exactly when some input is not. *)
Theorem IsComplete_iff (p : Packet) :
  length (Inputs p) = length (wire.tx_TxIn (UnsignedTx p)) ->
  (IsComplete p = Some true <-> Forall Finalized (Inputs p))
  /\ (IsComplete p = Some false
      <-> Exists (fun input => ~ Finalized input) (Inputs p)).
Proof.
  intros Hlen. unfold IsComplete. rewrite <- Hlen.
  pose proof (IsComplete_loop_forallb p [] (Inputs p) eq_refl) as E.
  cbn [length] in E. rewrite E. clear E. split.
  - rewrite Forall_forall. split.
    + intros H input Hin. inv H. rewrite forallb_forall in H1.
      apply finalized_true. now apply H1.
    + intros H. f_equal. apply forallb_forall. intros input Hin.
      apply finalized_true. now apply H.
  - rewrite Exists_exists. split.
    + intros H. inv H.
      destruct (forallb finalized (Inputs p)) eqn:E; [ discriminate | ].
      clear H1 Hlen. induction (Inputs p) as [| input rest IH];
        [ discriminate | ].
      cbn [forallb] in E. apply andb_false_iff in E. destruct E as [E | E].
      * exists input. split; [ now left | now apply finalized_false ].
      * destruct (IH E) as [x [Hin Hx]].
        exists x. split; [ now right | exact Hx ].
    + intros [input [Hin Hx]]. f_equal.
      destruct (forallb finalized (Inputs p)) eqn:E; [ | reflexivity ].
      rewrite forallb_forall in E. apply finalized_false in Hx.
      rewrite (E input Hin) in Hx. discriminate.
Qed.

(** *** NewFromUnsignedTx *)

Lemma PInput_zero_unfinalized : ~ Finalized PInput_zero.
Proof. intros [H | H]; now apply H. Qed.

(** C9: from an unsigned transaction with n inputs and m outputs,
    NewFromUnsignedTx returns a packet around that transaction with n input
    sections and m output sections, no input finalized, and IsComplete false
    as soon as there is an input. *)
Theorem NewFromUnsignedTx_unsigned (tx : wire.MsgTx) (n m : nat) :
  length (wire.tx_TxIn tx) = n ->
  length (wire.tx_TxOut tx) = m ->
  Forall (fun tin => wire.SignatureScript tin = [] /\ wire.Witness tin = [])
         (wire.tx_TxIn tx) ->
  exists p : Packet,
    NewFromUnsignedTx tx = Ok p
    /\ UnsignedTx p = tx
    /\ length (Inputs p) = n
    /\ length (Outputs p) = m
    /\ Forall (fun input => ~ Finalized input) (Inputs p)
    /\ ((0 < n)%nat -> IsComplete p = Some false).
Proof.
  intros Hn Hm Hu. unfold NewFromUnsignedTx.
  assert (Hv : validateUnsignedTX tx = true).
  { apply validateUnsignedTX_true. intros Hs. unfold Signed in Hs.
    rewrite Exists_exists in Hs. destruct Hs as [tin [Hin Hs]].
    rewrite Forall_forall in Hu. destruct (Hu tin Hin) as [H1 H2].
    destruct Hs; congruence. }
  rewrite Hv. cbn [negb]. eexists. split; [ reflexivity | ].
  cbn [UnsignedTx Inputs Outputs]. rewrite !repeat_length.
  repeat split; try assumption.
  - apply Forall_forall. intros input Hin. apply repeat_spec in Hin.
    subst input. exact PInput_zero_unfinalized.
  - intros Hpos. unfold IsComplete. cbn [UnsignedTx].
    destruct (wire.tx_TxIn tx) as [| tin rest]; cbn [length] in *; [ lia | ].
    subst n. reflexivity.
Qed.

(** *** GetTxFee *)

Lemma int64_small (z : Z) : - 2 ^ 63 <= z < 2 ^ 63 -> int64 z = z.
Proof.
  intros H. unfold int64. rewrite Z.mod_small; lia.
Qed.

Lemma int64_add_l (a b : Z) : int64 (int64 a + b) = int64 (a + b).
Proof.
  unfold int64. f_equal.
  replace ((a + 2 ^ 63) mod 2 ^ 64 - 2 ^ 63 + b + 2 ^ 63)
    with ((a + 2 ^ 63) mod 2 ^ 64 + b) by lia.
  rewrite Zplus_mod_idemp_l. f_equal. lia.
Qed.

Lemma int64_sub (a b : Z) : int64 (int64 a - int64 b) = int64 (a - b).
Proof.
  unfold int64. f_equal.
  replace ((a + 2 ^ 63) mod 2 ^ 64 - 2 ^ 63
           - ((b + 2 ^ 63) mod 2 ^ 64 - 2 ^ 63) + 2 ^ 63)
    with ((a + 2 ^ 63) mod 2 ^ 64 - (b + 2 ^ 63) mod 2 ^ 64 + 2 ^ 63) by lia.
  rewrite <- Zplus_mod_idemp_l, <- Zminus_mod, Zplus_mod_idemp_l.
  f_equal. lia.
Qed.

Lemma sumOutputs_loop_spec (txOut : list wire.TxOut) (acc : Z) :
  sumOutputs_loop txOut (int64 acc)
  = int64 (acc + Zsum (map wire.Value txOut)).
Proof.
  revert acc. induction txOut as [| o rest IH]; intros acc;
    cbn [sumOutputs_loop map Zsum fold_right].
  - now rewrite Z.add_0_r.
  - rewrite int64_add_l, IH. unfold Zsum. now rewrite Z.add_assoc.
Qed.

Lemma sumUtxo_defined (tx : wire.MsgTx) (ins : list PInput) (idx : nat)
    (acc : Z) :
  Forall (fun o => o <> None) (utxoValues tx idx ins) ->
  sumUtxo tx idx ins (int64 acc)
  = Ok (int64 (acc + Zsum (map orZero (utxoValues tx idx ins)))).
Proof.
  revert idx acc. induction ins as [| input rest IH]; intros idx acc H;
    cbn [sumUtxo utxoValues map Zsum fold_right] in *.
  - now rewrite Z.add_0_r.
  - inv H. destruct (utxoValue tx idx input) as [v | ]; [ | congruence ].
    rewrite int64_add_l, IH by assumption. cbn [orZero]. unfold Zsum.
    now rewrite Z.add_assoc.
Qed.

Lemma sumUtxo_missing (tx : wire.MsgTx) (ins : list PInput) (idx : nat)
    (acc : Z) :
  Exists (fun o => o = None) (utxoValues tx idx ins) ->
  sumUtxo tx idx ins acc = Err ErrMissingUtxo.
Proof.
  revert idx acc. induction ins as [| input rest IH]; intros idx acc H;
    cbn [sumUtxo utxoValues] in *.
  - inv H.
  - destruct (utxoValue tx idx input) as [v | ]; [ | reflexivity ].
    inv H; [ discriminate | ]. now apply IH.
Qed.

(** C6, as the code has it: when every input has a UTXO value, GetTxFee
    returns the sum of these values minus the sum of the output values,
    reduced to a signed 64-bit integer, which is the exact difference
    whenever that fits; when some input has none, it fails with the
    missing-UTXO error; the packet is left as it was. *)
Theorem GetTxFee_spec (p : Packet) :
  (Forall (fun o => o <> None) (inputValues p) ->
   GetTxFee p = (Ok (int64 (inputTotal p - outputTotal p)), p)
   /\ (- 2 ^ 63 <= inputTotal p - outputTotal p < 2 ^ 63 ->
       GetTxFee p = (Ok (inputTotal p - outputTotal p), p)))
  /\ (Exists (fun o => o = None) (inputValues p) ->
      GetTxFee p = (Err ErrMissingUtxo, p)).
Proof.
  unfold GetTxFee, SumUtxoInputValues, mbind, read, ret, fail, inputValues.
  split.
  - intros H.
    assert (E : GetTxFee p = (Ok (int64 (inputTotal p - outputTotal p)), p)).
    { unfold GetTxFee, SumUtxoInputValues, mbind, read, ret, fail.
      change 0 with (int64 0) at 1.
      rewrite sumUtxo_defined by exact H.
      change 0 with (int64 0) at 2.
      rewrite sumOutputs_loop_spec, int64_sub. cbn [Z.add]. reflexivity. }
    unfold GetTxFee, SumUtxoInputValues, mbind, read, ret, fail in E.
    split; [ exact E | ].
    intros Hr. rewrite E. now rewrite int64_small.
  - intros H. now rewrite sumUtxo_missing.
Qed.

End SimpleClaims.

(** ** The parser *)

Section ParserClaims.

Context {ext : Externals}.

Lemma readUnsignedTx_magic (r : Reader) :
  readUnsignedTx (psbtMagic ++ r)
  = ('(keyCode, keyData, r) <- getKey r ;;
     if negb (GlobalType keyCode =? UnsignedTxType)
        || negb (len keyData =? 0)
     then Err ErrInvalidPsbtFormat
     else
       '(value, r) <- wire.ReadVarBytes r MaxPsbtValueLength ;;
       msgTx <- DeserializeNoWitness value ;;
       if negb (validateUnsignedTX msgTx) then Err ErrInvalidRawTxSigned
       else Ok (msgTx, keyData, r)).
Proof.
  unfold readUnsignedTx.
  change psbtMagicLength with (len psbtMagic). rewrite ReadFull_app.
  cbn [bind]. now rewrite bytes_Equal_refl.
Qed.

Lemma readUnsignedTx_keyData (bs : bytes) (tx : wire.MsgTx) (keyData : bytes)
    (r : Reader) :
  readUnsignedTx bs = Ok (tx, keyData, r) -> keyData = [].
Proof.
  unfold readUnsignedTx. intros H.
  destruct (ReadFull bs psbtMagicLength) as [[magic r0] | ]; [ | discriminate ].
  cbn [bind] in H.
  destruct (negb (bytes_Equal magic psbtMagic)); [ discriminate | ].
  destruct (getKey r0) as [[[kc kd] r1] | ]; [ | discriminate ].
  cbn [bind] in H.
  destruct (Z.eqb_spec (len kd) 0) as [Hkd | Hkd].
  - destruct (negb (GlobalType kc =? UnsignedTxType)); [ discriminate | ].
    cbn [orb negb] in H.
    destruct (wire.ReadVarBytes r1 MaxPsbtValueLength) as [[v r2] | ];
      [ | discriminate ].
    cbn [bind] in H.
    destruct (DeserializeNoWitness v) as [msgTx | ]; [ | discriminate ].
    cbn [bind] in H.
    destruct (negb (validateUnsignedTX msgTx)); [ discriminate | ].
    inv H. destruct keyData; [ reflexivity | ].
    unfold len in Hkd. cbn [length] in Hkd. lia.
  - rewrite orb_true_r in H. discriminate.
Qed.

Lemma NewFromRawBytes_header_Err (bs : bytes) (e : error) :
  readUnsignedTx bs = Err e -> NewFromRawBytes bs = Err e.
Proof. intros H. unfold NewFromRawBytes. now rewrite H. Qed.

Lemma NewFromRawBytes_global_Err (bs : bytes) (tx : wire.MsgTx)
    (keyData : bytes) (r0 : Reader) (g : globals) (e : error) :
  readUnsignedTx bs = Ok (tx, keyData, r0) ->
  GlobalReach keyData (r0, [], []) g ->
  globalTurn keyData g = Err e ->
  NewFromRawBytes bs = Err e.
Proof.
  intros Hh Hr Ht. unfold NewFromRawBytes. rewrite Hh. cbn [bind].
  change (S (length r0)) with (S (length (reader (r0, @nil XPub, @nil Unknown)))).
  rewrite (globalLoop_reach Hr), globalLoop_unfold, Ht. reflexivity.
Qed.

(** C8: behind the magic bytes, a first key that is not the unsigned
    transaction type with no key data makes NewFromRawBytes fail with
    ErrInvalidPsbtFormat. *)
Theorem first_key_not_unsigned_tx (r : Reader) (keyCode : Z)
    (keyData : bytes) (r' : Reader) :
  getKey r = Ok (keyCode, keyData, r') ->
  GlobalType keyCode <> UnsignedTxType \/ keyData <> [] ->
  NewFromRawBytes (psbtMagic ++ r) = Err ErrInvalidPsbtFormat.
Proof.
  intros Hk Hnot. apply NewFromRawBytes_header_Err.
  rewrite readUnsignedTx_magic, Hk. cbn [bind].
  destruct Hnot as [Ht | Hd].
  - destruct (Z.eqb_spec (GlobalType keyCode) UnsignedTxType);
      [ contradiction | reflexivity ].
  - destruct keyData as [| b kd]; [ contradiction | ].
    unfold len. cbn [length].
    destruct (Z.eqb_spec (Z.of_nat (S (length kd))) 0); [ lia | ].
    now rewrite orb_true_r.
Qed.

(** C4: when the value of the unsigned-transaction record decodes to a
    transaction in which some input has a signature script or a witness,
    NewFromRawBytes fails with ErrInvalidRawTxSigned. *)
Theorem signed_transaction_rejected (r : Reader) (keyCode : Z) (r1 : Reader)
    (value : bytes) (r2 : Reader) (tx : wire.MsgTx) :
  getKey r = Ok (keyCode, [], r1) ->
  GlobalType keyCode = UnsignedTxType ->
  wire.ReadVarBytes r1 MaxPsbtValueLength = Ok (value, r2) ->
  DeserializeNoWitness value = Ok tx ->
  Signed tx ->
  NewFromRawBytes (psbtMagic ++ r) = Err ErrInvalidRawTxSigned.
Proof.
  intros Hk Ht Hv Hd Hs. apply NewFromRawBytes_header_Err.
  rewrite readUnsignedTx_magic, Hk. cbn [bind]. rewrite Ht.
  change (negb (UnsignedTxType =? UnsignedTxType) || negb (len [] =? 0))
    with false. cbv iota.
  rewrite Hv. cbn [bind]. rewrite Hd. cbn [bind].
  apply validateUnsignedTX_false in Hs. now rewrite Hs.
Qed.

(** C10: once the unsigned transaction is read, whatever error the reading
    of a later global key gives, NewFromRawBytes reports
    ErrInvalidPsbtFormat. *)
Theorem global_key_error_masked (bs : bytes) (tx : wire.MsgTx)
    (keyData : bytes) (r0 : Reader) (g : globals) (e : error) :
  readUnsignedTx bs = Ok (tx, keyData, r0) ->
  GlobalReach keyData (r0, [], []) g ->
  getKey (reader g) = Err e ->
  NewFromRawBytes bs = Err ErrInvalidPsbtFormat.
Proof.
  intros Hh Hr Hk.
  eapply NewFromRawBytes_global_Err; [ exact Hh | exact Hr | ].
  destruct g as [[r xs] us]. unfold globalTurn. cbn [reader fst] in Hk.
  now rewrite Hk.
Qed.

(** The duplicate test of the global loop compares the stored keys with the
    key data of the first record, which is empty: it lets every extended
    key pass, the repeated ones too, unless a stored key is empty. *)
Lemma duplicate_test_vacuous (xPubSlice : list XPub) :
  Forall (fun x => ExtendedKey x <> []) xPubSlice ->
  existsb (fun x => bytes_Equal (ExtendedKey x) []) xPubSlice = false.
Proof.
  induction 1 as [| x rest Hx _ IH]; [ reflexivity | ].
  cbn [existsb]. rewrite IH, orb_false_r.
  destruct (bytes_Equal (ExtendedKey x) []) eqn:E; [ | reflexivity ].
  apply bytes_Equal_nil in E. contradiction.
Qed.

End ParserClaims.

(** ** Length bounds *)

Section Bounds.

Context {ext : Externals}.







End Bounds.

(** ** Round trip *)

Section RoundTrip.

Context {ext : Externals}.











End RoundTrip.

(** * More properties of psbt.go *)

Section ParserFacts.

Context {ext : Externals}.

(** ** The magic bytes *)

(** X1: a stream of at least five bytes whose first five are not the magic
    bytes is refused with ErrInvalidMagicBytes, whatever follows. *)
Theorem wrong_magic_rejected (magic rest : bytes) :
  len magic = psbtMagicLength ->
  magic <> psbtMagic ->
  NewFromRawBytes (magic ++ rest) = Err ErrInvalidMagicBytes.
Proof.
  intros Hlen Hne. unfold NewFromRawBytes, readUnsignedTx.
  rewrite <- Hlen, ReadFull_app. cbn [bind].
  destruct (bytes_Equal magic psbtMagic) eqn:E; [ | reflexivity ].
  apply bytes_Equal_eq in E. contradiction.
Qed.

(** X2: a stream shorter than the magic bytes is refused with the error of
    the short read: io.EOF when it is empty, io.ErrUnexpectedEOF
    otherwise. *)
Theorem short_stream_rejected (r : Reader) :
  len r < psbtMagicLength ->
  NewFromRawBytes r
  = Err (match r with [] => io_EOF | _ :: _ => io_ErrUnexpectedEOF end).
Proof.
  intros Hlen. unfold NewFromRawBytes, readUnsignedTx, ReadFull.
  destruct (Z.leb_spec psbtMagicLength (len r)); [ lia | ].
  destruct r; reflexivity.
Qed.

(** ** What a parsed packet satisfies *)

Lemma readInputs_length (txIn : list wire.TxIn) (r : Reader)
    (ins : list PInput) (r' : Reader) :
  readInputs txIn r = Ok (ins, r') -> length ins = length txIn.
Proof.
  revert r ins. induction txIn as [| t txIn IH]; intros r ins H;
    cbn [readInputs] in H.
  - now inv H.
  - destruct (PInput_deserialize r) as [[i r1] | ]; [ | discriminate ].
    cbn [bind] in H.
    destruct (readInputs txIn r1) as [[l r2] | ] eqn:E; [ | discriminate ].
    inv H. cbn [length]. f_equal. eapply IH. exact E.
Qed.

Lemma readOutputs_length (txOut : list wire.TxOut) (r : Reader)
    (outs : list POutput) (r' : Reader) :
  readOutputs txOut r = Ok (outs, r') -> length outs = length txOut.
Proof.
  revert r outs. induction txOut as [| t txOut IH]; intros r outs H;
    cbn [readOutputs] in H.
  - now inv H.
  - destruct (POutput_deserialize r) as [[o r1] | ]; [ | discriminate ].
    cbn [bind] in H.
    destruct (readOutputs txOut r1) as [[l r2] | ] eqn:E; [ | discriminate ].
    inv H. cbn [length]. f_equal. eapply IH. exact E.
Qed.

Lemma SanityCheck_inputs_None (ins : list PInput) :
  SanityCheck_inputs ins = None -> Forall (fun tin => IsSane tin = true) ins.
Proof.
  induction ins as [| tin rest IH]; cbn [SanityCheck_inputs]; intros H.
  - constructor.
  - destruct (IsSane tin) eqn:E; [ | discriminate ].
    constructor; [ exact E | now apply IH ].
Qed.

(** The phases of a successful parse. *)
Lemma NewFromRawBytes_Ok (r : Reader) (p : Packet) :
  NewFromRawBytes r = Ok p ->
  exists keyData r0 r1 r2 r3,
    readUnsignedTx r = Ok (UnsignedTx p, keyData, r0)
    /\ globalLoop (S (length r0)) keyData (r0, [], [])
       = Ok (r1, XPubs p, Unknowns p)
    /\ readInputs (wire.tx_TxIn (UnsignedTx p)) r1 = Ok (Inputs p, r2)
    /\ readOutputs (wire.tx_TxOut (UnsignedTx p)) r2 = Ok (Outputs p, r3)
    /\ SanityCheck p = None.
Proof.
  unfold NewFromRawBytes. intros H.
  destruct (readUnsignedTx r) as [[[tx kd] r0] | ] eqn:Eh; [ | discriminate ].
  cbn [bind] in H.
  destruct (globalLoop (S (length r0)) kd (r0, [], []))
    as [[[r1 xs] us] | ] eqn:Eg; [ | discriminate ].
  cbn [bind] in H.
  destruct (readInputs (wire.tx_TxIn tx) r1) as [[ins r2] | ] eqn:Ei;
    [ | discriminate ].
  cbn [bind] in H.
  destruct (readOutputs (wire.tx_TxOut tx) r2) as [[outs r3] | ] eqn:Eo;
    [ | discriminate ].
  cbn [bind] in H.
  match type of H with
  | match ?c with Some _ => _ | None => _ end = _ => destruct c eqn:Es
  end; [ discriminate | ].
  inv H. cbn [UnsignedTx Inputs Outputs XPubs Unknowns].
  exists kd, r0, r1, r2, r3. repeat split; assumption.
Qed.

(** X3: a packet returned by NewFromRawBytes has one input section for each
    input and one output section for each output of its transaction, an
    unsigned transaction and sane inputs: it passes SanityCheck. *)
Theorem parsed_packet_invariants (r : Reader) (p : Packet) :
  NewFromRawBytes r = Ok p ->
  length (Inputs p) = length (wire.tx_TxIn (UnsignedTx p))
  /\ length (Outputs p) = length (wire.tx_TxOut (UnsignedTx p))
  /\ ~ Signed (UnsignedTx p)
  /\ Forall (fun tin => IsSane tin = true) (Inputs p)
  /\ SanityCheck p = None.
Proof.
  intros H. apply NewFromRawBytes_Ok in H.
  destruct H as [kd [r0 [r1 [r2 [r3 [_ [_ [Hi [Ho Hs]]]]]]]]].
  split; [ eapply readInputs_length; exact Hi | ].
  split; [ eapply readOutputs_length; exact Ho | ].
  split; [ apply validateUnsignedTX_true, SanityCheck_None_inv, Hs | ].
  split; [ | exact Hs ].
  apply SanityCheck_inputs_None. unfold SanityCheck in Hs.
  destruct (negb (validateUnsignedTX (UnsignedTx p)));
    [ discriminate | exact Hs ].
Qed.

(** The unknown pairs of the global loop keep what they satisfy, and a new
    one starts with its type byte. *)
Lemma globalLoop_unknown_keys (fuel : nat) (keyData : bytes) (g g' : globals) :
  globalLoop fuel keyData g = Ok g' ->
  Forall (fun u => Key u <> []) (snd g) ->
  Forall (fun u => Key u <> []) (snd g').
Proof.
  revert g. induction fuel as [| fuel IH]; intros g H Hg;
    [ discriminate | ].
  rewrite globalLoop_S in H.
  destruct (globalTurn keyData g) as [t | ] eqn:Et; [ | discriminate ].
  cbn [bind] in H.
  assert (Ht : match t with
               | Break g1 | Continue g1 =>
                   Forall (fun u => Key u <> []) (snd g1)
               end).
  { destruct g as [[r xs] us]. cbn [snd] in Hg. unfold globalTurn in Et.
    destruct (getKey r) as [[[k kd] r1] | ]; [ | discriminate ].
    destruct (k =? -1); [ inv Et; exact Hg | ].
    destruct (wire.ReadVarBytes r1 MaxPsbtValueLength) as [[v r2] | ];
      [ | discriminate ].
    cbn [bind] in Et. destruct (GlobalType k =? XPubType).
    - destruct (ReadXPub kd v); [ | discriminate ]. cbn [bind] in Et.
      destruct (existsb _ xs); [ discriminate | ]. inv Et. exact Hg.
    - inv Et. cbn [snd]. apply Forall_app. split; [ exact Hg | ].
      constructor; [ cbn [Key]; discriminate | constructor ]. }
  destruct t as [g1 | g1]; [ inv H; exact Ht | ].
  eapply IH; eassumption.
Qed.

(** X4: every global unknown pair of a parsed packet has a key of at least
    one byte, its type byte. *)
Theorem parsed_unknown_keys_nonempty (r : Reader) (p : Packet) :
  NewFromRawBytes r = Ok p ->
  Forall (fun u => Key u <> []) (Unknowns p).
Proof.
  intros H. apply NewFromRawBytes_Ok in H.
  destruct H as [kd [r0 [r1 [r2 [r3 [_ [Hg _]]]]]]].
  apply globalLoop_unknown_keys in Hg; [ exact Hg | constructor ].
Qed.

End ParserFacts.

(** ** Reading from a longer input *)

Lemma ReadFull_more (r : Reader) (n : Z) (b : bytes) (r' x : Reader) :
  ReadFull r n = Ok (b, r') -> ReadFull (r ++ x) n = Ok (b, r' ++ x).
Proof.
  unfold ReadFull. destruct (Z.leb_spec n (len r)) as [Hle | Hgt].
  - intros H. inv H. rewrite len_app. pose proof (len_nonneg x).
    destruct (Z.leb_spec n (len r + len x)); [ | lia ].
    rewrite firstn_app, skipn_app.
    replace (Z.to_nat n - length r)%nat with 0%nat by (unfold len in *; lia).
    cbn [firstn skipn]. now rewrite app_nil_r.
  - destruct r; discriminate.
Qed.

Lemma readUint_more (w : Z) (r : Reader) (v : Z) (r' x : Reader) :
  wire.readUint w r = Ok (v, r') -> wire.readUint w (r ++ x) = Ok (v, r' ++ x).
Proof.
  unfold wire.readUint. intros H.
  destruct (ReadFull r w) as [[b r0] | ] eqn:E; [ | discriminate ].
  rewrite (ReadFull_more _ _ x E). cbn [bind] in *. now inv H.
Qed.

Lemma ReadVarInt_more (r : Reader) (v : Z) (r' x : Reader) :
  wire.ReadVarInt r = Ok (v, r') -> wire.ReadVarInt (r ++ x) = Ok (v, r' ++ x).
Proof.
  unfold wire.ReadVarInt. intros H.
  destruct (wire.readUint 1 r) as [[d r0] | ] eqn:E; [ | discriminate ].
  rewrite (readUint_more _ _ x E). cbn [bind] in *.
  destruct (d =? 0xff); [ | destruct (d =? 0xfe); [ | destruct (d =? 0xfd) ] ].
  4: { now inv H. }
  all: match type of H with
       | bind ?c _ = _ => destruct c as [[sv r1] | ] eqn:E1; [ | discriminate ]
       end;
    rewrite (readUint_more _ _ x E1); cbn [bind] in *;
    match type of H with
    | (if ?c then _ else _) = _ => destruct c; [ discriminate | now inv H ]
    end.
Qed.

Lemma ReadVarBytes_more (r : Reader) (m : Z) (b : bytes) (r' x : Reader) :
  wire.ReadVarBytes r m = Ok (b, r') ->
  wire.ReadVarBytes (r ++ x) m = Ok (b, r' ++ x).
Proof.
  unfold wire.ReadVarBytes. intros H.
  destruct (wire.ReadVarInt r) as [[count r0] | ] eqn:E; [ | discriminate ].
  rewrite (ReadVarInt_more _ x E). cbn [bind] in *.
  destruct (count >? m); [ discriminate | ].
  now apply ReadFull_more.
Qed.

Lemma getKey_more (r : Reader) (k : Z) (kd : bytes) (r' x : Reader) :
  getKey r = Ok (k, kd, r') -> getKey (r ++ x) = Ok (k, kd, r' ++ x).
Proof.
  unfold getKey. intros H.
  destruct (wire.ReadVarInt r) as [[count r0] | ] eqn:E; [ | discriminate ].
  rewrite (ReadVarInt_more _ x E).
  destruct (count =? 0); [ now inv H | ].
  destruct (count >? MaxPsbtKeyLength); [ discriminate | ].
  destruct (ReadFull r0 count) as [[key r1] | ] eqn:E1; [ | discriminate ].
  rewrite (ReadFull_more _ _ x E1). cbn [bind] in *.
  destruct (wire.ReadVarInt key) as [[kt kd'] | ]; [ | discriminate ].
  destruct (kt >? MaxPsbtKeyValue); [ discriminate | now inv H ].
Qed.

Lemma sectionLoop_more (A : Type)
    (field : A -> Z -> bytes -> bytes -> result A) (fuel : nat) (r : Reader)
    (a a' : A) (r' x : Reader) :
  sectionLoop field fuel r a = Ok (a', r') ->
  sectionLoop field fuel (r ++ x) a = Ok (a', r' ++ x).
Proof.
  revert r a. induction fuel as [| fuel IH]; intros r a H; [ discriminate | ].
  rewrite sectionLoop_S in *.
  destruct (getKey r) as [[[k kd] r1] | ] eqn:E; [ | discriminate ].
  rewrite (getKey_more _ x E). cbn [bind] in *.
  destruct (k =? -1); [ now inv H | ].
  destruct (wire.ReadVarBytes r1 MaxPsbtValueLength) as [[v r2] | ] eqn:E1;
    [ | discriminate ].
  rewrite (ReadVarBytes_more _ _ x E1). cbn [bind] in *.
  destruct (field a k kd v); [ | discriminate ]. cbn [bind] in *.
  now apply IH.
Qed.

Lemma sectionLoop_fuel_mono (A : Type)
    (field : A -> Z -> bytes -> bytes -> result A) (f f' : nat) (r : Reader)
    (a : A) (res : A * Reader) :
  sectionLoop field f r a = Ok res -> (f <= f')%nat ->
  sectionLoop field f' r a = Ok res.
Proof.
  revert f' r a. induction f as [| f IH]; intros f' r a H Hle;
    [ discriminate | ].
  destruct f' as [| f']; [ lia | ]. rewrite sectionLoop_S in *.
  destruct (getKey r) as [[[k kd] r1] | ]; [ | discriminate ].
  cbn [bind] in *. destruct (k =? -1); [ exact H | ].
  destruct (wire.ReadVarBytes r1 MaxPsbtValueLength) as [[v r2] | ];
    [ | discriminate ].
  cbn [bind] in *. destruct (field a k kd v); [ | discriminate ].
  cbn [bind] in *. apply IH; [ exact H | lia ].
Qed.

Section ParserFacts2.

Context {ext : Externals}.

Lemma globalTurn_more (keyData : bytes) (g : globals) (t : turn globals)
    (x : bytes) :
  globalTurn keyData g = Ok t ->
  globalTurn keyData (globals_more x g) = Ok (turn_more x t).
Proof.
  destruct g as [[r xs] us]. unfold globalTurn, globals_more. intros H.
  destruct (getKey r) as [[[k kd] r1] | ] eqn:E; [ | discriminate ].
  rewrite (getKey_more _ x E).
  destruct (k =? -1); [ now inv H | ].
  destruct (wire.ReadVarBytes r1 MaxPsbtValueLength) as [[v r2] | ] eqn:E1;
    [ | discriminate ].
  rewrite (ReadVarBytes_more _ _ x E1). cbn [bind] in *.
  destruct (GlobalType k =? XPubType).
  - destruct (ReadXPub kd v); [ | discriminate ]. cbn [bind] in *.
    destruct (existsb _ xs); [ discriminate | now inv H ].
  - now inv H.
Qed.

Lemma globalLoop_more (fuel : nat) (keyData : bytes) (g g' : globals)
    (x : bytes) :
  globalLoop fuel keyData g = Ok g' ->
  globalLoop fuel keyData (globals_more x g) = Ok (globals_more x g').
Proof.
  revert g. induction fuel as [| fuel IH]; intros g H; [ discriminate | ].
  rewrite globalLoop_S in *.
  destruct (globalTurn keyData g) as [t | ] eqn:E; [ | discriminate ].
  rewrite (globalTurn_more _ _ x E). cbn [bind] in *.
  destruct t as [g1 | g1]; cbn [turn_more]; [ now inv H | now apply IH ].
Qed.

Lemma globalLoop_fuel_mono (f f' : nat) (keyData : bytes) (g g' : globals) :
  globalLoop f keyData g = Ok g' -> (f <= f')%nat ->
  globalLoop f' keyData g = Ok g'.
Proof.
  revert f' g. induction f as [| f IH]; intros f' g H Hle; [ discriminate | ].
  destruct f' as [| f']; [ lia | ]. rewrite globalLoop_S in *.
  destruct (globalTurn keyData g) as [t | ]; [ | discriminate ].
  cbn [bind] in *. destruct t as [g1 | g1]; [ exact H | ].
  apply IH; [ exact H | lia ].
Qed.

Lemma PInput_deserialize_more (r : Reader) (a : PInput) (r' x : Reader) :
  PInput_deserialize r = Ok (a, r') ->
  PInput_deserialize (r ++ x) = Ok (a, r' ++ x).
Proof.
  unfold PInput_deserialize. intros H.
  apply (sectionLoop_more _ _ _ _ x) in H.
  eapply sectionLoop_fuel_mono; [ exact H | ]. rewrite length_app. lia.
Qed.

Lemma POutput_deserialize_more (r : Reader) (a : POutput) (r' x : Reader) :
  POutput_deserialize r = Ok (a, r') ->
  POutput_deserialize (r ++ x) = Ok (a, r' ++ x).
Proof.
  unfold POutput_deserialize. intros H.
  apply (sectionLoop_more _ _ _ _ x) in H.
  eapply sectionLoop_fuel_mono; [ exact H | ]. rewrite length_app. lia.
Qed.

Lemma readInputs_more (txIn : list wire.TxIn) (r : Reader)
    (ins : list PInput) (r' x : Reader) :
  readInputs txIn r = Ok (ins, r') ->
  readInputs txIn (r ++ x) = Ok (ins, r' ++ x).
Proof.
  revert r ins. induction txIn as [| t txIn IH]; intros r ins H;
    cbn [readInputs] in *.
  - now inv H.
  - destruct (PInput_deserialize r) as [[i r1] | ] eqn:E; [ | discriminate ].
    rewrite (PInput_deserialize_more _ x E). cbn [bind] in *.
    destruct (readInputs txIn r1) as [[l r2] | ] eqn:E1; [ | discriminate ].
    cbn [bind] in H. inv H. now rewrite (IH _ _ E1).
Qed.

Lemma readOutputs_more (txOut : list wire.TxOut) (r : Reader)
    (outs : list POutput) (r' x : Reader) :
  readOutputs txOut r = Ok (outs, r') ->
  readOutputs txOut (r ++ x) = Ok (outs, r' ++ x).
Proof.
  revert r outs. induction txOut as [| t txOut IH]; intros r outs H;
    cbn [readOutputs] in *.
  - now inv H.
  - destruct (POutput_deserialize r) as [[o r1] | ] eqn:E; [ | discriminate ].
    rewrite (POutput_deserialize_more _ x E). cbn [bind] in *.
    destruct (readOutputs txOut r1) as [[l r2] | ] eqn:E1; [ | discriminate ].
    cbn [bind] in H. inv H. now rewrite (IH _ _ E1).
Qed.

Lemma readUnsignedTx_more (r : Reader) (tx : wire.MsgTx) (keyData : bytes)
    (r' x : Reader) :
  readUnsignedTx r = Ok (tx, keyData, r') ->
  readUnsignedTx (r ++ x) = Ok (tx, keyData, r' ++ x).
Proof.
  unfold readUnsignedTx. intros H.
  destruct (ReadFull r psbtMagicLength) as [[magic r0] | ] eqn:E;
    [ | discriminate ].
  rewrite (ReadFull_more _ _ x E). cbn [bind] in *.
  destruct (negb (bytes_Equal magic psbtMagic)); [ discriminate | ].
  destruct (getKey r0) as [[[kc kd] r1] | ] eqn:E1; [ | discriminate ].
  rewrite (getKey_more _ x E1). cbn [bind] in *.
  destruct (negb (GlobalType kc =? UnsignedTxType) || negb (len kd =? 0));
    [ discriminate | ].
  destruct (wire.ReadVarBytes r1 MaxPsbtValueLength) as [[v r2] | ] eqn:E2;
    [ | discriminate ].
  rewrite (ReadVarBytes_more _ _ x E2). cbn [bind] in *.
  destruct (DeserializeNoWitness v); [ | discriminate ]. cbn [bind] in *.
  destruct (negb (validateUnsignedTX a)); [ discriminate | now inv H ].
Qed.

(** X5: NewFromRawBytes does not look behind the last output section: when
    a stream is parsed, the same stream followed by any bytes is parsed into
    the same packet. *)
Theorem trailing_bytes_ignored (r : Reader) (p : Packet) (x : bytes) :
  NewFromRawBytes r = Ok p ->
  NewFromRawBytes (r ++ x) = Ok p.
Proof.
  intros H. apply NewFromRawBytes_Ok in H.
  destruct H as [kd [r0 [r1 [r2 [r3 [Hh [Hg [Hi [Ho Hs]]]]]]]]].
  unfold NewFromRawBytes.
  rewrite (readUnsignedTx_more _ x Hh). cbn [bind].
  apply (globalLoop_more _ _ _ x) in Hg.
  apply (globalLoop_fuel_mono (f' := S (length (r0 ++ x)))) in Hg;
    [ | rewrite length_app; lia ].
  cbn [globals_more] in Hg.
  match goal with
  | |- bind ?c _ = _ =>
      replace c with (Ok (r1 ++ x, XPubs p, Unknowns p) : result globals)
        by (symmetry; exact Hg)
  end.
  cbn [bind]. rewrite (readInputs_more _ _ x Hi). cbn [bind].
  rewrite (readOutputs_more _ _ x Ho). cbn [bind].
  destruct p as [tx ins outs xs us].
  cbn [UnsignedTx Inputs Outputs XPubs Unknowns] in *. now rewrite Hs.
Qed.

(** ** Errors of the global loop *)

(** X6: the error of a value read in the global section is returned as it
    is, unlike the error of a key read. *)
Theorem global_value_error_kept (bs : bytes) (tx : wire.MsgTx)
    (keyData : bytes) (r0 : Reader) (g : globals) (k : Z) (kd : bytes)
    (r1 : Reader) (e : error) :
  readUnsignedTx bs = Ok (tx, keyData, r0) ->
  GlobalReach keyData (r0, [], []) g ->
  getKey (reader g) = Ok (k, kd, r1) ->
  k <> -1 ->
  wire.ReadVarBytes r1 MaxPsbtValueLength = Err e ->
  NewFromRawBytes bs = Err e.
Proof.
  intros Hh Hr Hk Hne Hv.
  eapply NewFromRawBytes_global_Err; [ exact Hh | exact Hr | ].
  destruct g as [[r xs] us]. cbn [reader fst] in Hk. unfold globalTurn.
  rewrite Hk. destruct (Z.eqb_spec k (-1)); [ contradiction | ].
  now rewrite Hv.
Qed.

Lemma GlobalReach_snoc (keyData : bytes) (g g' g'' : globals) :
  GlobalReach keyData g g' ->
  globalTurn keyData g' = Ok (Continue g'') ->
  GlobalReach keyData g g''.
Proof.
  induction 1 as [g | g g1 g2 Ht _ IH]; intros H.
  - eapply reach_turn; [ exact H | apply reach_here ].
  - eapply reach_turn; [ exact Ht | now apply IH ].
Qed.

Lemma duplicate_test_empty (xPubSlice : list XPub) :
  Exists (fun x => ExtendedKey x = []) xPubSlice ->
  existsb (fun x => bytes_Equal (ExtendedKey x) []) xPubSlice = true.
Proof.
  induction 1 as [x rest Hx | x rest _ IH]; cbn [existsb].
  - rewrite Hx. reflexivity.
  - rewrite IH. apply orb_true_r.
Qed.

(** X7: the duplicate test on an extended-key record does not look at the
    key of the record. When every key stored so far is non-empty the record
    is appended, whether or not its key is among them; when a stored key is
    empty the parse fails with ErrDuplicateKey, whatever the new key is. *)
Theorem duplicate_test_ignores_key (bs : bytes) (tx : wire.MsgTx)
    (keyData : bytes) (r0 r : Reader) (xs : list XPub) (us : list Unknown)
    (k : Z) (kd : bytes) (r1 : Reader) (v : bytes) (r2 : Reader) (x : XPub) :
  readUnsignedTx bs = Ok (tx, keyData, r0) ->
  GlobalReach keyData (r0, [], []) (r, xs, us) ->
  getKey r = Ok (k, kd, r1) ->
  GlobalType k = XPubType ->
  wire.ReadVarBytes r1 MaxPsbtValueLength = Ok (v, r2) ->
  ReadXPub kd v = Ok x ->
  (Forall (fun y => ExtendedKey y <> []) xs ->
   GlobalReach keyData (r0, [], []) (r2, xs ++ [x], us))
  /\ (Exists (fun y => ExtendedKey y = []) xs ->
      NewFromRawBytes bs = Err ErrDuplicateKey).
Proof.
  intros Hh Hr Hk Ht Hv Hx.
  pose proof (readUnsignedTx_keyData _ Hh) as Hkd. subst keyData.
  assert (Hne : (k =? -1) = false).
  { destruct (Z.eqb_spec k (-1)) as [-> | ]; [ discriminate Ht | reflexivity ]. }
  assert (Hturn : globalTurn [] (r, xs, us)
                  = if existsb (fun y => bytes_Equal (ExtendedKey y) []) xs
                    then Err ErrDuplicateKey
                    else Ok (Continue (r2, xs ++ [x], us))).
  { unfold globalTurn. rewrite Hk, Hne, Hv. cbn [bind]. rewrite Ht.
    change (XPubType =? XPubType) with true. cbv iota. now rewrite Hx. }
  split.
  - intros Hall. eapply GlobalReach_snoc; [ exact Hr | ].
    now rewrite Hturn, duplicate_test_vacuous.
  - intros Hex. eapply NewFromRawBytes_global_Err; [ exact Hh | exact Hr | ].
    now rewrite Hturn, duplicate_test_empty.
Qed.


(** ** Parsing and the other operations *)

(** X9: IsComplete does not panic on a parsed packet: it returns whether
    every input section is finalized. *)
Theorem parsed_IsComplete (r : Reader) (p : Packet) :
  NewFromRawBytes r = Ok p ->
  IsComplete p = Some (forallb finalized (Inputs p))
  /\ (IsComplete p = Some true <-> Forall Finalized (Inputs p)).
Proof.
  intros H. apply NewFromRawBytes_Ok in H.
  destruct H as [kd [r0 [r1 [r2 [r3 [_ [_ [Hi _]]]]]]]].
  apply readInputs_length in Hi.
  assert (E : IsComplete p = Some (forallb finalized (Inputs p))).
  { unfold IsComplete. rewrite <- Hi.
    exact (IsComplete_loop_forallb p [] (Inputs p) eq_refl). }
  split; [ exact E | ]. rewrite E, Forall_forall. split.
  - intros H input Hin. inv H. rewrite forallb_forall in H1.
    apply finalized_true. now apply H1.
  - intros H. f_equal. apply forallb_forall. intros input Hin.
    apply finalized_true. now apply H.
Qed.


End ParserFacts2.

(** ** NewFromUnsignedTx and SanityCheck *)

Section PacketFacts.

Context {ext : Externals}.

(** X11: NewFromUnsignedTx fails exactly on the signed transactions, and
    then with ErrInvalidRawTxSigned. *)
Theorem NewFromUnsignedTx_error (tx : wire.MsgTx) :
  (Signed tx <-> NewFromUnsignedTx tx = Err ErrInvalidRawTxSigned)
  /\ (forall e, NewFromUnsignedTx tx = Err e -> e = ErrInvalidRawTxSigned).
Proof.
  unfold NewFromUnsignedTx. rewrite <- validateUnsignedTX_false.
  destruct (validateUnsignedTX tx); cbn [negb]; repeat split;
    try discriminate; try reflexivity; intros; congruence.
Qed.

(** X12: SanityCheck returns nil exactly when the transaction is unsigned
    and every input is sane. *)
Theorem SanityCheck_nil_iff (p : Packet) :
  SanityCheck p = None
  <-> ~ Signed (UnsignedTx p)
      /\ Forall (fun tin => IsSane tin = true) (Inputs p).
Proof.
  split.
  - intros H. split.
    + apply validateUnsignedTX_true. now apply SanityCheck_None_inv.
    + apply SanityCheck_inputs_None. unfold SanityCheck in H.
      destruct (negb (validateUnsignedTX (UnsignedTx p)));
        [ discriminate | exact H ].
  - intros [Hu Hs]. now apply SanityCheck_None.
Qed.

(** X13: when the zero-valued input is sane, the packet that
    NewFromUnsignedTx makes from an unsigned transaction passes
    SanityCheck. *)
Theorem fresh_packet_sane (tx : wire.MsgTx) :
  IsSane PInput_zero = true ->
  ~ Signed tx ->
  exists p, NewFromUnsignedTx tx = Ok p /\ SanityCheck p = None.
Proof.
  intros Hz Hu. unfold NewFromUnsignedTx.
  pose proof Hu as Hv. apply validateUnsignedTX_true in Hv. rewrite Hv.
  cbn [negb]. eexists. split; [ reflexivity | ].
  apply SanityCheck_None; cbn [UnsignedTx Inputs]; [ exact Hu | ].
  apply Forall_forall. intros input Hin. apply repeat_spec in Hin.
  now subst input.
Qed.

End PacketFacts.

(** ** IsComplete beyond the invariant *)

Lemma IsComplete_loop_firstn (p : Packet) (done rest : list PInput) (n : nat) :
  Inputs p = done ++ rest ->
  (n <= length rest)%nat ->
  IsComplete_loop p (length done) n = Some (forallb finalized (firstn n rest)).
Proof.
  revert done rest. induction n as [| n IH]; intros done rest Hp Hn.
  - reflexivity.
  - destruct rest as [| input rest]; cbn [length] in Hn; [ lia | ].
    cbn [IsComplete_loop firstn forallb]. unfold isFinalized.
    rewrite Hp, nth_error_app2, Nat.sub_diag by lia. cbn [nth_error].
    destruct (finalized input); [ | reflexivity ]. cbn [andb].
    specialize (IH (done ++ [input]) rest).
    rewrite length_app, Nat.add_1_r, <- app_assoc in IH.
    apply IH; [ exact Hp | lia ].
Qed.

(** X14: IsComplete looks at as many input sections as the transaction has
    inputs: on a packet with at least that many sections it returns whether
    the first ones are all finalized, whatever the sections behind them
    hold. *)
Theorem IsComplete_first_sections (p : Packet) :
  let n := length (wire.tx_TxIn (UnsignedTx p)) in
  (n <= length (Inputs p))%nat ->
  IsComplete p = Some (forallb finalized (firstn n (Inputs p)))
  /\ (IsComplete p = Some true <-> Forall Finalized (firstn n (Inputs p))).
Proof.
  intros n Hn.
  assert (E : IsComplete p = Some (forallb finalized (firstn n (Inputs p)))).
  { unfold IsComplete.
    exact (IsComplete_loop_firstn p [] (Inputs p) eq_refl Hn). }
  split; [ exact E | ]. rewrite E, Forall_forall. split.
  - intros H input Hin. inv H. rewrite forallb_forall in H1.
    apply finalized_true. now apply H1.
  - intros H. f_equal. apply forallb_forall. intros input Hin.
    apply finalized_true. now apply H.
Qed.

(** ** GetTxFee below zero *)

Lemma GetTxFee_value (p : Packet) :
  Forall (fun o => o <> None) (inputValues p) ->
  GetTxFee p = (Ok (int64 (inputTotal p - outputTotal p)), p).
Proof.
  intros H. unfold GetTxFee, SumUtxoInputValues, mbind, read, ret, fail.
  unfold inputValues in H. change 0 with (int64 0) at 1.
  rewrite sumUtxo_defined by exact H.
  change 0 with (int64 0) at 2.
  rewrite sumOutputs_loop_spec, int64_sub. cbn [Z.add]. reflexivity.
Qed.

(** X15: GetTxFee does not refuse a packet whose outputs are worth more than
    its inputs: it returns the negative difference, with no error. *)
Theorem GetTxFee_negative (p : Packet) :
  Forall (fun o => o <> None) (inputValues p) ->
  - 2 ^ 63 <= inputTotal p - outputTotal p < 0 ->
  exists fee, GetTxFee p = (Ok fee, p)
              /\ fee = inputTotal p - outputTotal p
              /\ fee < 0.
Proof.
  intros H Hr. exists (inputTotal p - outputTotal p).
  rewrite (GetTxFee_value p H), int64_small by lia.
  repeat split. lia.
Qed.

(** ** The sorter of partial signatures *)









Lemma length_store (A : Type) (s : list A) (i : nat) (v : A) :
  length (store s i v) = length s.
Proof.
  revert i. induction s as [| x s IH]; intros [| i]; cbn [store length];
    auto.
Qed.

Lemma nth_error_store_same (A : Type) (s : list A) (i : nat) (v : A) :
  (i < length s)%nat -> nth_error (store s i v) i = Some v.
Proof.
  revert i. induction s as [| x s IH]; intros [| i] H; cbn [length] in H;
    cbn [store nth_error]; try lia; [ reflexivity | apply IH; lia ].
Qed.

Lemma nth_error_store_other (A : Type) (s : list A) (i k : nat) (v : A) :
  k <> i -> nth_error (store s i v) k = nth_error s k.
Proof.
  revert i k. induction s as [| x s IH]; intros [| i] [| k] H;
    cbn [store nth_error]; try reflexivity; try congruence.
  apply IH. congruence.
Qed.

Lemma PartialSigSorter_Swap_nth (s s' : PartialSigSorter) (i j k : nat) :
  PartialSigSorter_Swap s i j = Some s' ->
  nth_error s' k
  = if Nat.eqb k j then nth_error s i
    else if Nat.eqb k i then nth_error s j
    else nth_error s k.
Proof.
  unfold PartialSigSorter_Swap.
  destruct (nth_error s i) as [si | ] eqn:Ei; [ | discriminate ].
  destruct (nth_error s j) as [sj | ] eqn:Ej; [ | discriminate ].
  intros H. inv H.
  assert (Hi : (i < length s)%nat) by (apply nth_error_Some; congruence).
  assert (Hj : (j < length s)%nat) by (apply nth_error_Some; congruence).
  destruct (Nat.eqb_spec k j) as [-> | Hkj].
  - rewrite nth_error_store_same by (rewrite length_store; exact Hj).
    reflexivity.
  - rewrite nth_error_store_other by exact Hkj.
    destruct (Nat.eqb_spec k i) as [-> | Hki].
    + now rewrite nth_error_store_same.
    + now rewrite nth_error_store_other.
Qed.

(** X17: Swap exchanges the elements at the two indices and leaves the
    length and every other element as they were; swapping again gives the
    slice back; and Less between the two indices is turned around. It panics
    exactly when an index is out of range. *)
Theorem PartialSigSorter_Swap_spec (s : PartialSigSorter) (i j : nat) :
  (PartialSigSorter_Swap s i j = None
   <-> (length s <= i)%nat \/ (length s <= j)%nat)
  /\ (forall s', PartialSigSorter_Swap s i j = Some s' ->
        PartialSigSorter_Len s' = PartialSigSorter_Len s
        /\ nth_error s' i = nth_error s j
        /\ nth_error s' j = nth_error s i
        /\ (forall k, k <> i -> k <> j -> nth_error s' k = nth_error s k)
        /\ PartialSigSorter_Swap s' i j = Some s
        /\ PartialSigSorter_Less s' i j = PartialSigSorter_Less s j i).
Proof.
  split.
  - unfold PartialSigSorter_Swap.
    destruct (nth_error s i) as [si | ] eqn:Ei;
      destruct (nth_error s j) as [sj | ] eqn:Ej.
    + assert (nth_error s i <> None) by congruence.
      assert (nth_error s j <> None) by congruence.
      rewrite nth_error_Some in *. split; [ discriminate | lia ].
    + apply nth_error_None in Ej. split; [ now right | reflexivity ].
    + apply nth_error_None in Ei. split; [ now left | reflexivity ].
    + apply nth_error_None in Ei. split; [ now left | reflexivity ].
  - intros s' H.
    assert (Hi' : nth_error s' i = nth_error s j).
    { rewrite (@PartialSigSorter_Swap_nth s s' i j i H), Nat.eqb_refl.
      destruct (Nat.eqb_spec i j) as [-> | ]; reflexivity. }
    assert (Hj' : nth_error s' j = nth_error s i).
    { now rewrite (@PartialSigSorter_Swap_nth s s' i j j H), Nat.eqb_refl. }
    assert (Hlen : length s' = length s).
    { unfold PartialSigSorter_Swap in H.
      destruct (nth_error s i); [ | discriminate ].
      destruct (nth_error s j); [ | discriminate ].
      inv H. now rewrite !length_store. }
    split; [ unfold PartialSigSorter_Len; now rewrite Hlen | ].
    split; [ exact Hi' | ]. split; [ exact Hj' | ].
    split.
    { intros k Hki Hkj. rewrite (@PartialSigSorter_Swap_nth s s' i j k H).
      destruct (Nat.eqb_spec k j); [ contradiction | ].
      destruct (Nat.eqb_spec k i); [ contradiction | reflexivity ]. }
    split.
    + unfold PartialSigSorter_Swap in H |- *.
      destruct (nth_error s i) as [si | ] eqn:Ei; [ | discriminate ].
      destruct (nth_error s j) as [sj | ] eqn:Ej; [ | discriminate ].
      rewrite Hi', Hj'. f_equal.
      assert (Hi : (i < length s)%nat) by (apply nth_error_Some; congruence).
      assert (Hj : (j < length s)%nat) by (apply nth_error_Some; congruence).
      apply nth_error_ext. intros k.
      destruct (Nat.eqb_spec k j) as [-> | Hkj].
      * rewrite nth_error_store_same, Ej
          by (rewrite length_store, Hlen; exact Hj).
        reflexivity.
      * rewrite nth_error_store_other by exact Hkj.
        destruct (Nat.eqb_spec k i) as [-> | Hki].
        -- rewrite nth_error_store_same, Ei by (rewrite Hlen; exact Hi).
           reflexivity.
        -- rewrite nth_error_store_other by exact Hki.
           rewrite (@PartialSigSorter_Swap_nth s s' i j k).
           ++ destruct (Nat.eqb_spec k j); [ contradiction | ].
              destruct (Nat.eqb_spec k i); [ contradiction | reflexivity ].
           ++ unfold PartialSigSorter_Swap. rewrite Ei, Ej. inv H.
              reflexivity.
    + unfold PartialSigSorter_Less. now rewrite Hi', Hj'.
Qed.

(** ** What makes Serialize fail *)

Section SerializeFacts.

Context {ext : Externals}.




End SerializeFacts.

(** * Witnesses and counterexamples *)

Import Reference Examples.






(** C2: the code lets a repeated extended key pass. The stream holds
    the same extended-key record twice and is parsed into a packet with both
    copies; no ErrDuplicateKey is raised. *)
Theorem duplicate_xpub_accepted :
  NewFromRawBytes streamTwice = Ok packetTwice
  /\ XPubs packetTwice = [xpub0; xpub0].
Proof. split; vm_compute; reflexivity. Qed.

(** Witness of C3: a packet with an unsigned transaction and an input that
    is not sane. *)
Lemma SanityCheck_failure_witness :
  Insane packetInsane
  /\ ((Signed (UnsignedTx packetInsane)
       /\ SanityCheck packetInsane = Some ErrInvalidRawTxSigned)
      \/ (~ Signed (UnsignedTx packetInsane)
          /\ SanityCheck packetInsane = Some ErrInvalidPsbtFormat)).
Proof.
  assert (H : Insane packetInsane) by (apply Exists_cons_hd; reflexivity).
  split; [ exact H | ].
  apply SanityCheck_failure. right. exact H.
Defined.

(** Counterexample of C3 as stated: on a packet whose transaction is signed
    the error of SanityCheck is ErrInvalidRawTxSigned, not the invalid-format
    error. *)
Lemma SanityCheck_signed_counterexample :
  Signed (UnsignedTx packetSigned)
  /\ SanityCheck packetSigned = Some ErrInvalidRawTxSigned
  /\ SanityCheck packetSigned <> Some ErrInvalidPsbtFormat.
Proof.
  split; [ | split ].
  - apply Exists_cons_hd. left. vm_compute. discriminate.
  - reflexivity.
  - vm_compute. discriminate.
Qed.

(** Witness of C4: a stream whose transaction has a signature script. *)
Lemma signed_transaction_rejected_witness :
  Signed tx11Signed
  /\ NewFromRawBytes streamSigned = Err ErrInvalidRawTxSigned.
Proof.
  assert (H : Signed tx11Signed)
    by (apply Exists_cons_hd; left; vm_compute; discriminate).
  split; [ exact H | ].
  unfold streamSigned, streamOf.
  eapply signed_transaction_rejected with (tx := tx11Signed)
    (value := legacyEncode tx11Signed) (keyCode := 0)
    (r1 := wire.WriteVarBytes (legacyEncode tx11Signed)
             ++ [] ++ hex "00" ++ hex "00" ++ hex "00")
    (r2 := hex "000000").
  - vm_compute. reflexivity.
  - reflexivity.
  - vm_compute. reflexivity.
  - vm_compute. reflexivity.
  - exact H.
Defined.

(** Witness of C5: two inputs, the first one finalized. *)
Lemma IsComplete_iff_witness :
  length (Inputs packetHalf) = length (wire.tx_TxIn (UnsignedTx packetHalf))
  /\ (IsComplete packetHalf = Some true
      <-> Forall Finalized (Inputs packetHalf))
  /\ (IsComplete packetHalf = Some false
      <-> Exists (fun input => ~ Finalized input) (Inputs packetHalf)).
Proof.
  split; [ reflexivity | ]. apply IsComplete_iff. reflexivity.
Defined.

(** Witness of C6: two inputs worth 100,000 each and an output of 150,000
    give a fee of 50,000; without the UTXO of one input the call fails. *)
Lemma GetTxFee_spec_witness :
  GetTxFee packetFee = (Ok 50000, packetFee)
  /\ GetTxFee packetNoUtxo = (Err ErrMissingUtxo, packetNoUtxo).
Proof.
  split.
  - destruct (GetTxFee_spec packetFee) as [H _].
    destruct H as [_ H].
    + repeat constructor; discriminate.
    + apply H. split; [ vm_compute; discriminate | vm_compute; reflexivity ].
  - destruct (GetTxFee_spec packetNoUtxo) as [_ H].
    apply H. apply Exists_cons_tl, Exists_cons_hd. reflexivity.
Defined.

(** Counterexample of C6 as stated: every input has a UTXO value, the exact
    difference is 1 - (2^64 - 2), and GetTxFee returns 3. *)
Lemma GetTxFee_overflow_counterexample :
  Forall (fun o => o <> None) (inputValues packetOverflow)
  /\ fst (GetTxFee packetOverflow) = Ok 3
  /\ inputTotal packetOverflow - outputTotal packetOverflow
     = 1 - (2 ^ 64 - 2)
  /\ fst (GetTxFee packetOverflow)
     <> Ok (inputTotal packetOverflow - outputTotal packetOverflow).
Proof.
  split; [ repeat constructor; discriminate | ].
  split; [ reflexivity | ].
  split; [ reflexivity | ].
  vm_compute. discriminate.
Qed.


(** Witness of C8: the first key has the type of an extended key. *)
Lemma first_key_not_unsigned_tx_witness :
  getKey (hex "010100") = Ok (1, [], hex "00")
  /\ NewFromRawBytes streamFirstKey01 = Err ErrInvalidPsbtFormat.
Proof.
  split; [ vm_compute; reflexivity | ].
  unfold streamFirstKey01.
  eapply first_key_not_unsigned_tx with (keyCode := 1) (keyData := [])
    (r' := hex "00").
  - vm_compute. reflexivity.
  - left. vm_compute. discriminate.
Defined.

(** Witness of C9: two inputs and one output. *)
Lemma NewFromUnsignedTx_unsigned_witness :
  exists p : Packet,
    NewFromUnsignedTx tx21 = Ok p
    /\ UnsignedTx p = tx21
    /\ length (Inputs p) = 2%nat
    /\ length (Outputs p) = 1%nat
    /\ Forall (fun input => ~ Finalized input) (Inputs p)
    /\ ((0 < 2)%nat -> IsComplete p = Some false).
Proof.
  apply NewFromUnsignedTx_unsigned; [ reflexivity | reflexivity | ].
  repeat constructor.
Defined.

(** Witness of C10: behind the transaction, a key that declares 10,001
    bytes: the key reader says ErrInvalidKeyData and the parser reports
    ErrInvalidPsbtFormat. *)
Lemma global_key_error_masked_witness :
  getKey (hex "fd1127") = Err ErrInvalidKeyData
  /\ NewFromRawBytes streamLongKey = Err ErrInvalidPsbtFormat.
Proof.
  split; [ vm_compute; reflexivity | ].
  eapply global_key_error_masked with (tx := tx11) (keyData := [])
    (r0 := hex "fd1127") (g := (hex "fd1127", [], []))
    (e := ErrInvalidKeyData).
  - vm_compute. reflexivity.
  - apply reach_here.
  - vm_compute. reflexivity.
Defined.

(** Only the first key keeps the error of the key reader. *)
Example first_key_error_kept :
  NewFromRawBytes (psbtMagic ++ hex "fd1127") = Err ErrInvalidKeyData.
Proof. vm_compute. reflexivity. Qed.

(** ** Witnesses of the further properties *)

Import MoreExamples.

(** Witness of X1: the last magic byte is 0x00. *)
Lemma wrong_magic_rejected_witness :
  len magicWrong = psbtMagicLength
  /\ magicWrong <> psbtMagic
  /\ NewFromRawBytes (magicWrong ++ hex "0100") = Err ErrInvalidMagicBytes.
Proof.
  assert (H1 : len magicWrong = psbtMagicLength) by reflexivity.
  assert (H2 : magicWrong <> psbtMagic) by (vm_compute; discriminate).
  split; [ exact H1 | ]. split; [ exact H2 | ].
  exact (@wrong_magic_rejected _ magicWrong (hex "0100") H1 H2).
Defined.

(** Witness of X2: the first two magic bytes and nothing else. *)
Lemma short_stream_rejected_witness :
  NewFromRawBytes (hex "7073") = Err io_ErrUnexpectedEOF.
Proof.
  apply (@short_stream_rejected _ (hex "7073")). vm_compute. reflexivity.
Defined.

Lemma streamGood_parsed : NewFromRawBytes streamGood = Ok packetGood.
Proof. vm_compute. reflexivity. Qed.

(** Witness of X3: the stream with an extended key and an unknown pair. *)
Lemma parsed_packet_invariants_witness :
  length (Inputs packetGood) = length (wire.tx_TxIn (UnsignedTx packetGood))
  /\ length (Outputs packetGood)
     = length (wire.tx_TxOut (UnsignedTx packetGood))
  /\ ~ Signed (UnsignedTx packetGood)
  /\ Forall (fun tin => IsSane tin = true) (Inputs packetGood)
  /\ SanityCheck packetGood = None.
Proof.
  apply (@parsed_packet_invariants _ streamGood). exact streamGood_parsed.
Defined.

(** Witness of X4: the unknown pair of the stream has the key fc01. *)
Lemma parsed_unknown_keys_nonempty_witness :
  Forall (fun u => Key u <> []) (Unknowns packetGood).
Proof.
  apply (@parsed_unknown_keys_nonempty _ streamGood).
  exact streamGood_parsed.
Defined.

(** Witness of X5: four bytes behind the output section. *)
Lemma trailing_bytes_ignored_witness :
  NewFromRawBytes (streamGood ++ hex "deadbeef") = Ok packetGood.
Proof.
  apply trailing_bytes_ignored. exact streamGood_parsed.
Defined.

(** Witness of X6: the stream ends behind a global key; the value read says
    io.EOF and so does the parser. *)
Lemma global_value_error_kept_witness :
  wire.ReadVarBytes [] MaxPsbtValueLength = Err io_EOF
  /\ NewFromRawBytes streamNoValue = Err io_EOF.
Proof.
  split; [ reflexivity | ].
  eapply global_value_error_kept with (tx := tx11) (keyData := [])
    (r0 := hex "0105") (g := (hex "0105", [], [])) (k := 5) (kd := [])
    (r1 := []).
  - vm_compute. reflexivity.
  - apply reach_here.
  - vm_compute. reflexivity.
  - discriminate.
  - reflexivity.
Defined.

(** Witness of X7: the second record of the stream has the extended key of
    the first one, and is appended. *)
Lemma duplicate_test_ignores_key_witness :
  GlobalReach []
    (xpubRecord ++ xpubRecord ++ hex "000000", [], [])
    (hex "000000", [xpub0; xpub0], []).
Proof.
  assert (H : GlobalReach []
                (xpubRecord ++ xpubRecord ++ hex "000000", [], [])
                (xpubRecord ++ hex "000000", [xpub0], [])).
  { eapply reach_turn; [ | apply reach_here ]. vm_compute. reflexivity. }
  refine (proj1 (@duplicate_test_ignores_key _ streamTwice tx11 []
                   (xpubRecord ++ xpubRecord ++ hex "000000")
                   (xpubRecord ++ hex "000000") [xpub0] [] 1 xpubKey
                   (hex "043442193e000000") (hex "3442193e") (hex "000000")
                   xpub0 _ H _ _ _ _) _).
  - vm_compute. reflexivity.
  - vm_compute. reflexivity.
  - reflexivity.
  - vm_compute. reflexivity.
  - vm_compute. reflexivity.
  - constructor; [ vm_compute; discriminate | constructor ].
Defined.


(** Witness of X9: the parsed packet has one input, not finalized. *)
Lemma parsed_IsComplete_witness :
  IsComplete packetGood = Some (forallb finalized (Inputs packetGood))
  /\ (IsComplete packetGood = Some true
      <-> Forall Finalized (Inputs packetGood)).
Proof.
  apply (@parsed_IsComplete _ streamGood). exact streamGood_parsed.
Defined.


(** Witness of X13: two inputs and one output. *)
Lemma fresh_packet_sane_witness :
  exists p, NewFromUnsignedTx tx21 = Ok p /\ SanityCheck p = None.
Proof.
  apply fresh_packet_sane; [ reflexivity | ].
  apply validateUnsignedTX_true. reflexivity.
Defined.

(** Witness of X14: one transaction input, finalized, and a second input
    section that is not. *)
Lemma IsComplete_first_sections_witness :
  IsComplete packetExtraInput = Some true
  /\ ~ Forall Finalized (Inputs packetExtraInput).
Proof.
  split.
  - apply (IsComplete_first_sections packetExtraInput);
      [ cbn; lia | ].
    constructor; [ | constructor ]. left. discriminate.
  - intros H. inv H. inv H3. destruct H1 as [H | H]; apply H; reflexivity.
Defined.

(** Witness of X15: inputs worth 200 and an output of 150,000. *)
Lemma GetTxFee_negative_witness :
  exists fee, GetTxFee packetUnderfunded = (Ok fee, packetUnderfunded)
              /\ fee = inputTotal packetUnderfunded
                       - outputTotal packetUnderfunded
              /\ fee < 0.
Proof.
  apply GetTxFee_negative.
  - repeat constructor; discriminate.
  - split; [ vm_compute; discriminate | vm_compute; reflexivity ].
Defined.


(** Witness of X17: the first and the last of three signatures change
    places. *)
Lemma PartialSigSorter_Swap_spec_witness :
  exists s', PartialSigSorter_Swap sorter3 0 2 = Some s'
             /\ PartialSigSorter_Len s' = 3
             /\ nth_error s' 0 = Some (sigOf (hex "03"))
             /\ nth_error s' 2 = Some (sigOf (hex "03aa"))
             /\ PartialSigSorter_Swap s' 0 2 = Some sorter3.
Proof.
  eexists. split; [ reflexivity | ].
  destruct (PartialSigSorter_Swap_spec sorter3 0 2) as [_ H].
  destruct (H _ eq_refl) as [Hl [H0 [H2 [_ [Hs _]]]]].
  split; [ exact Hl | ]. split; [ exact H0 | ]. split; [ exact H2 | ].
  exact Hs.
Defined.
